(** * Command.ts: argument validation, command dispatch, registry and prefix cache

    A shallow embedding of [src/command.ts].  A call returns or throws
    (an [async] one resolves or rejects): the two branches of [outcome].
    The module-level variables ([guildPrefixCache], [defaultPrefix], the
    two prefix callbacks) become an explicit machine state, the commands
    of the collector a list that is passed along.  JavaScript strings are
    [string]s whose characters stand for code units; JavaScript numbers
    are IEEE 754 binary64 values ([spec_float] at precision 53 and
    maximal exponent 1024). *)

From Stdlib Require Import ZArith String Ascii List Bool Lia.
From Stdlib Require Import Floats.SpecFloat.
From stdpp Require Import base strings gmap list.

Import ListNotations.
Local Open Scope string_scope.

(** * Part I: the program

    ** The JavaScript built-ins the source relies on *)

Module JS.

(** *** Strings *)

(** [WhiteSpace] and [LineTerminator] code units, as [String.prototype.trim]
    and the regular expression class [\s] see them: TAB, LF, VT, FF, CR,
    SPACE and NBSP (the ones below U+0100). *)
Definition is_white_space (c : ascii) : bool :=
  let n := nat_of_ascii c in
  ((9 <=? n)%nat && (n <=? 13)%nat) || (n =? 32)%nat || (n =? 160)%nat.

Fixpoint trimStart (s : string) : string :=
  match s with
  | EmptyString => EmptyString
  | String c s' => if is_white_space c then trimStart s' else s
  end.

Fixpoint trimEnd (s : string) : string :=
  match s with
  | EmptyString => EmptyString
  | String c s' =>
      match trimEnd s' with
      | EmptyString => if is_white_space c then EmptyString else String c EmptyString
      | t => String c t
      end
  end.

(** [s.trim()] *)
Definition trim (s : string) : string := trimEnd (trimStart s).

(** [s.split(sep)] for a separator of one code unit: the result always has
    at least one element. *)
Fixpoint split (sep : ascii) (s : string) : list string :=
  match s with
  | EmptyString => [EmptyString]
  | String c s' =>
      if Ascii.eqb c sep then EmptyString :: split sep s'
      else match split sep s' with
           | [] => [String c EmptyString]
           | t :: ts => String c t :: ts
           end
  end.

(** [a.join(sep)] *)
Fixpoint join (sep : string) (a : list string) : string :=
  match a with
  | [] => EmptyString
  | [x] => x
  | x :: xs => x +:+ sep +:+ join sep xs
  end.

(** [a.shift()]: the first element ([None] for [undefined]) and the array
    that is left. *)
Definition shift (a : list string) : option string * list string :=
  match a with
  | [] => (None, [])
  | x :: xs => (Some x, xs)
  end.

(** [x || ""] for [x] a string or [undefined]. *)
Definition or_empty (x : option string) : string :=
  match x with
  | Some (String c s) => String c s
  | _ => EmptyString
  end.

(** [a.includes(x)] on an array of strings. *)
Definition includes (a : list string) (x : string) : bool :=
  existsb (String.eqb x) a.

(** [/\s/.test(s)] *)
Fixpoint has_white_space (s : string) : bool :=
  match s with
  | EmptyString => false
  | String c s' => is_white_space c || has_white_space s'
  end.

(** [ToBoolean] of an array: every object is truthy, the empty array
    included. *)
Definition truthy_array {A : Type} (a : list A) : bool := true.

(** [ToBoolean] of a string or [undefined]: falsy when missing or empty. *)
Definition truthy_string (x : option string) : bool :=
  match x with
  | Some (String _ _) => true
  | _ => false
  end.

(** *** Numbers *)

Definition prec : Z := 53.
Definition emax : Z := 1024.

(** A [Number]. *)
Definition number : Type := spec_float.

Definition zero : number := S754_zero false.

(** The [Number] of an integer literal. *)
Definition of_Z (z : Z) : number := binary_normalize prec emax z 0 false.

Definition is_digit (c : ascii) : bool :=
  let n := nat_of_ascii c in (48 <=? n)%nat && (n <=? 57)%nat.

Fixpoint all_digits (s : string) : bool :=
  match s with
  | EmptyString => true
  | String c s' => is_digit c && all_digits s'
  end.

(** The parts of a token of the grammar [-?\d+(\.\d+)?], anchored at both
    ends: the sign, the integer digits and the fraction digits ([""] when
    there is no fraction). *)
Definition decimal_literal (arg : string) : option (bool * string * string) :=
  let '(neg, body) :=
    match arg with
    | String "-" s => (true, s)
    | _ => (false, arg)
    end in
  match split "." body with
  | [int] =>
      if (0 <? String.length int)%nat && all_digits int
      then Some (neg, int, EmptyString) else None
  | [int; frac] =>
      if (0 <? String.length int)%nat && all_digits int
         && (0 <? String.length frac)%nat && all_digits frac
      then Some (neg, int, frac) else None
  | _ => None
  end.

(** [/^-?\d+(\.\d+)?$/.test(arg)] *)
Definition is_decimal_literal (arg : string) : bool :=
  match decimal_literal arg with Some _ => true | None => false end.

Fixpoint digits_value (acc : Z) (s : string) : Z :=
  match s with
  | EmptyString => acc
  | String c s' => digits_value (10 * acc + (Z.of_nat (nat_of_ascii c) - 48)) s'
  end.

(** [parseFloat(arg)] on the tokens of the grammar above: the binary64
    value nearest to the decimal (ties to even), an infinity when the
    decimal is beyond the range.  On any other token the source throws
    before it looks at the parsed number, and the model gives [NaN]. *)
Definition parseFloat (arg : string) : number :=
  match decimal_literal arg with
  | None => S754_nan
  | Some (neg, int, frac) =>
      match digits_value 0 (int +:+ frac) with
      | Zpos m =>
          SFdiv prec emax
            (S754_finite neg m 0)
            (S754_finite false (Z.to_pos (10 ^ Z.of_nat (String.length frac))) 0)
      | _ => S754_zero neg
      end
  end.

Definition isNaN (x : number) : bool :=
  match x with S754_nan => true | _ => false end.

(** [x > y], [x < y], [x <= y], [x >= y]: false as soon as one side is
    [NaN]. *)
Definition gt (x y : number) : bool := SFltb y x.
Definition lt (x y : number) : bool := SFltb x y.
Definition le (x y : number) : bool := SFleb x y.
Definition ge (x y : number) : bool := SFleb y x.

(** [x % 1]: the fractional part with the sign of [x]; [NaN] for [NaN] and
    the infinities. *)
Definition rem_one (x : number) : number :=
  match x with
  | S754_nan | S754_infinity _ => S754_nan
  | S754_zero s => S754_zero s
  | S754_finite s m e =>
      match e with
      | Zneg k =>
          match (Zpos m mod 2 ^ Zpos k)%Z with
          | Zpos r => binary_normalize prec emax (if s then Zneg r else Zpos r) e s
          | _ => S754_zero s
          end
      | _ => S754_zero s
      end
  end.

(** [x !== y] on numbers. *)
Definition strict_neq (x y : number) : bool := negb (SFeqb x y).

End JS.

(** ** Values, results and the case mappings *)

(** What a parsed argument can be: a string, a number, or [undefined] (the
    default of an Argument that was given none). *)
Inductive value : Type :=
| VUndefined
| VString (s : string)
| VNumber (n : JS.number).

(** [o[name] = val] on an object made by [{}], for [val] a primitive: an
    own property is written, except under the name ["__proto__"], which is
    the accessor of [Object.prototype]: its setter ignores a primitive, and
    the object is left as it was. *)
Definition object_set (name : string) (val : value) (o : gmap string value)
    : gmap string value :=
  if String.eqb name "__proto__" then o else <[name := val]> o.

(** [String.prototype.toUpperCase] and [toLowerCase] follow the Unicode
    case mappings (they may change the length: U+00DF becomes "SS").  The
    development only uses that they keep the empty string empty. *)
Class CaseMapping : Type := {
  toUpperCase : string -> string;
  toLowerCase : string -> string;
  toUpperCase_empty : toUpperCase "" = "";
  toLowerCase_empty : toLowerCase "" = ""
}.

(** ** Arguments *)

Module Argument.

(** The fields of [class Argument]. *)
Record base : Type := {
  _optional : bool;
  _name : string;
  _display : string;
  _displayDefault : bool;
  _default : value
}.

(** [constructor()] *)
Definition new : base :=
  {| _optional := false; _name := "_"; _display := "_";
     _displayDefault := true; _default := VUndefined |}.

(** [optional(fallback, displayDefault)] *)
Definition optional (fallback : value) (displayDefault : bool) (this : base) : base :=
  {| _optional := true; _name := _name this; _display := _display this;
     _displayDefault := displayDefault; _default := fallback |}.

(** [setName(name, display)], for a [name] that passed its three checks. *)
Definition setName (name : string) (display : option string) (this : base) : base :=
  {| _optional := _optional this; _name := name;
     _display := match display with Some d => d | None => name end;
     _displayDefault := _displayDefault this; _default := _default this |}.

End Argument.

(** The fields [class StringArgument] adds.  A regular expression is the
    predicate its [test] computes.  The two length bounds are integers,
    the negative ones included; a bound that is no integer acts on a
    length as the integer next to it does (a minimum as its ceiling, a
    maximum as its floor). *)
Record StringArgument : Type := {
  string_super : Argument.base;
  _regex : option (string -> bool);
  _maxlen : option Z;
  _minlen : option Z;
  _whitelist : option (list string);
  _uppercase : bool;
  _lowercase : bool
}.

(** The fields [class NumberArgument] adds. *)
Record NumberArgument : Type := {
  number_super : Argument.base;
  _min : option JS.number;
  _max : option JS.number;
  _int : bool;
  _forcePositive : bool;
  _forceNegative : bool
}.

(** The three kinds [Argument.createArgumentType] hands out. *)
Inductive Argument : Type :=
| String_ (a : StringArgument)
| Rest (a : StringArgument)
| Number (a : NumberArgument).

Definition super (arg : Argument) : Argument.base :=
  match arg with
  | String_ a | Rest a => string_super a
  | Number a => number_super a
  end.

Definition getDefault (arg : Argument) : value := Argument._default (super arg).
Definition isOptional (arg : Argument) : bool := Argument._optional (super arg).
Definition getName (arg : Argument) : string := Argument._name (super arg).

Definition hasDefault (arg : Argument) : bool :=
  match getDefault arg with VUndefined => false | _ => true end.

(** ** Errors *)

(** The text of a [ParseError], by the template that produced it and the
    values put into it. *)
Inductive message : Type :=
| StringTooShort (minlen : Z) (len : nat)
| StringTooLong (maxlen : Z) (len : nat)
| NotInWhitelist (arg : string) (whitelist : list string)
| RegexMismatch (arg : string)
| NotAValidNumber (arg : string)
| NumberTooSmall (min num : JS.number)
| NumberTooLarge (max num : JS.number)
| NotAnInteger (num : JS.number)
| NotPositive (num : JS.number)
| NotNegative (num : JS.number).

Record ParseError : Type := {
  parse_message : message;
  argument : Argument
}.

(** What the module throws.  [OtherError] stands for every [Error] that is
    none of the three classes: the ones of the name checks, a [TypeError],
    and whatever an execution handler rejects with. *)
Inductive Error : Type :=
| Parse (e : ParseError)
| TooManyArgumentsError (parseError : option ParseError)
| PermissionError
| OtherError (msg : string).

(** A call that returns (an [async] one: resolves) or throws (rejects). *)
Inductive outcome (A : Type) : Type :=
| Return (a : A)
| Throw (e : Error).

Arguments Return {A} a.
Arguments Throw {A} e.

Definition throw_ParseError {A : Type} (msg : message) (this : Argument) : outcome A :=
  Throw (Parse {| parse_message := msg; argument := this |}).

Definition is_Return {A : Type} (r : outcome A) : bool :=
  match r with Return _ => true | Throw _ => false end.

Definition is_ParseError {A : Type} (r : outcome A) : bool :=
  match r with Throw (Parse _) => true | _ => false end.

(** ** String, Rest and Number arguments *)

Module StringArgument.
Section WithCaseMapping.
Context `{CaseMapping}.

(** [constructor()] *)
Definition new : StringArgument :=
  {| string_super := Argument.new; _regex := None; _maxlen := None;
     _minlen := None; _whitelist := None; _uppercase := false;
     _lowercase := false |}.

(** The two case foldings at the head of [_validate]. *)
Definition fold_case (a : StringArgument) (arg : string) : string :=
  let arg := if _uppercase a then toUpperCase arg else arg in
  if _lowercase a then toLowerCase arg else arg.

(** The four checks of [_validate], each giving the text of its error when
    it fails. *)
Definition check_minlen (a : StringArgument) (arg : string) : option message :=
  match _minlen a with
  | Some minlen =>
      if (Z.of_nat (String.length arg) <? minlen)%Z
      then Some (StringTooShort minlen (String.length arg)) else None
  | None => None
  end.

Definition check_maxlen (a : StringArgument) (arg : string) : option message :=
  match _maxlen a with
  | Some maxlen =>
      if (maxlen <? Z.of_nat (String.length arg))%Z
      then Some (StringTooLong maxlen (String.length arg)) else None
  | None => None
  end.

Definition check_whitelist (a : StringArgument) (arg : string) : option message :=
  match _whitelist a with
  | Some words =>
      if negb (JS.includes words arg) then Some (NotInWhitelist arg words) else None
  | None => None
  end.

Definition check_regex (a : StringArgument) (arg : string) : option message :=
  match _regex a with
  | Some regex => if negb (regex arg) then Some (RegexMismatch arg) else None
  | None => None
  end.

(** [_validate(arg, ...rest)], called with one [rest] string; [this] is the
    Argument the error is thrown for. *)
Definition _validate (this : Argument) (a : StringArgument)
    (arg rest : string) : outcome (value * string) :=
  let arg := fold_case a arg in
  match check_minlen a arg with Some msg => throw_ParseError msg this | None =>
  match check_maxlen a arg with Some msg => throw_ParseError msg this | None =>
  match check_whitelist a arg with Some msg => throw_ParseError msg this | None =>
  match check_regex a arg with Some msg => throw_ParseError msg this | None =>
  Return (VString arg, rest)
  end end end end.

(** [validate(args)] *)
Definition validate (a : StringArgument) (args : string) : outcome (value * string) :=
  let argArray := JS.split " " args in
  let '(str, argArray) := JS.shift argArray in
  _validate (String_ a) a (JS.or_empty str) (JS.join " " argArray).

(** The builders. *)
Definition match_ (regex : string -> bool) (a : StringArgument) : StringArgument :=
  {| string_super := string_super a; _regex := Some regex; _maxlen := _maxlen a;
     _minlen := _minlen a; _whitelist := _whitelist a;
     _uppercase := _uppercase a; _lowercase := _lowercase a |}.

Definition max (len : Z) (a : StringArgument) : StringArgument :=
  {| string_super := string_super a; _regex := _regex a; _maxlen := Some len;
     _minlen := _minlen a; _whitelist := _whitelist a;
     _uppercase := _uppercase a; _lowercase := _lowercase a |}.

Definition min (len : Z) (a : StringArgument) : StringArgument :=
  {| string_super := string_super a; _regex := _regex a; _maxlen := _maxlen a;
     _minlen := Some len; _whitelist := _whitelist a;
     _uppercase := _uppercase a; _lowercase := _lowercase a |}.

Definition forceUpperCase (a : StringArgument) : StringArgument :=
  {| string_super := string_super a; _regex := _regex a; _maxlen := _maxlen a;
     _minlen := _minlen a; _whitelist := _whitelist a;
     _uppercase := true; _lowercase := false |}.

Definition forceLowerCase (a : StringArgument) : StringArgument :=
  {| string_super := string_super a; _regex := _regex a; _maxlen := _maxlen a;
     _minlen := _minlen a; _whitelist := _whitelist a;
     _uppercase := false; _lowercase := true |}.

Definition whitelist (words : list string) (a : StringArgument) : StringArgument :=
  {| string_super := string_super a; _regex := _regex a; _maxlen := _maxlen a;
     _minlen := _minlen a;
     _whitelist := Some (app (match _whitelist a with Some w => w | None => [] end) words);
     _uppercase := _uppercase a; _lowercase := _lowercase a |}.

Definition optional (fallback : value) (displayDefault : bool)
    (a : StringArgument) : StringArgument :=
  {| string_super := Argument.optional fallback displayDefault (string_super a);
     _regex := _regex a; _maxlen := _maxlen a; _minlen := _minlen a;
     _whitelist := _whitelist a; _uppercase := _uppercase a;
     _lowercase := _lowercase a |}.

Definition setName (name : string) (a : StringArgument) : StringArgument :=
  {| string_super := Argument.setName name None (string_super a);
     _regex := _regex a; _maxlen := _maxlen a; _minlen := _minlen a;
     _whitelist := _whitelist a; _uppercase := _uppercase a;
     _lowercase := _lowercase a |}.

End WithCaseMapping.
End StringArgument.

Module RestArgument.
Section WithCaseMapping.
Context `{CaseMapping}.

(** [validate(args)]: the whole input is the candidate. *)
Definition validate (a : StringArgument) (args : string) : outcome (value * string) :=
  StringArgument._validate (Rest a) a args "".

End WithCaseMapping.
End RestArgument.

Module NumberArgument.

(** [constructor()] *)
Definition new : NumberArgument :=
  {| number_super := Argument.new; _min := None; _max := None; _int := false;
     _forcePositive := false; _forceNegative := false |}.

(** The six checks of [validate], in the order of the source. *)
Definition check_format (arg : string) (num : JS.number) : option message :=
  if negb (JS.is_decimal_literal arg) || JS.isNaN num
  then Some (NotAValidNumber arg) else None.

Definition check_min (a : NumberArgument) (num : JS.number) : option message :=
  match _min a with
  | Some min => if JS.gt min num then Some (NumberTooSmall min num) else None
  | None => None
  end.

Definition check_max (a : NumberArgument) (num : JS.number) : option message :=
  match _max a with
  | Some max => if JS.lt max num then Some (NumberTooLarge max num) else None
  | None => None
  end.

Definition check_int (a : NumberArgument) (num : JS.number) : option message :=
  if _int a && JS.strict_neq (JS.rem_one num) JS.zero
  then Some (NotAnInteger num) else None.

Definition check_positive (a : NumberArgument) (num : JS.number) : option message :=
  if _forcePositive a && JS.le num JS.zero then Some (NotPositive num) else None.

Definition check_negative (a : NumberArgument) (num : JS.number) : option message :=
  if _forceNegative a && JS.ge num JS.zero then Some (NotNegative num) else None.

(** [validate(args)] *)
Definition validate (a : NumberArgument) (args : string) : outcome (value * string) :=
  let this := Number a in
  let argArray := JS.split " " args in
  let '(first, argArray) := JS.shift argArray in
  let arg := JS.or_empty first in
  let num := JS.parseFloat arg in
  match check_format arg num with Some msg => throw_ParseError msg this | None =>
  match check_min a num with Some msg => throw_ParseError msg this | None =>
  match check_max a num with Some msg => throw_ParseError msg this | None =>
  match check_int a num with Some msg => throw_ParseError msg this | None =>
  match check_positive a num with Some msg => throw_ParseError msg this | None =>
  match check_negative a num with Some msg => throw_ParseError msg this | None =>
  Return (VNumber num, JS.join " " argArray)
  end end end end end end.

(** The builders. *)
Definition min (min : JS.number) (a : NumberArgument) : NumberArgument :=
  {| number_super := number_super a; _min := Some min; _max := _max a;
     _int := _int a; _forcePositive := _forcePositive a;
     _forceNegative := _forceNegative a |}.

Definition max (max : JS.number) (a : NumberArgument) : NumberArgument :=
  {| number_super := number_super a; _min := _min a; _max := Some max;
     _int := _int a; _forcePositive := _forcePositive a;
     _forceNegative := _forceNegative a |}.

Definition integer (a : NumberArgument) : NumberArgument :=
  {| number_super := number_super a; _min := _min a; _max := _max a;
     _int := true; _forcePositive := _forcePositive a;
     _forceNegative := _forceNegative a |}.

Definition positive (a : NumberArgument) : NumberArgument :=
  {| number_super := number_super a; _min := _min a; _max := _max a;
     _int := _int a; _forcePositive := true; _forceNegative := false |}.

Definition negative (a : NumberArgument) : NumberArgument :=
  {| number_super := number_super a; _min := _min a; _max := _max a;
     _int := _int a; _forcePositive := false; _forceNegative := true |}.

Definition setName (name : string) (a : NumberArgument) : NumberArgument :=
  {| number_super := Argument.setName name None (number_super a);
     _min := _min a; _max := _max a; _int := _int a;
     _forcePositive := _forcePositive a; _forceNegative := _forceNegative a |}.

End NumberArgument.

(** [arg.validate(args)], by the class of [arg]. *)
Definition validate `{CaseMapping} (arg : Argument) (args : string)
    : outcome (value * string) :=
  match arg with
  | String_ a => StringArgument.validate a args
  | Rest a => RestArgument.validate a args
  | Number a => NumberArgument.validate a args
  end.

(** ** Commands *)

(** The chat transport is an external collaborator: [ICommandMessage] is the
    client with the incoming message, and [missing ev perms] is what
    [ev.message.guild.me.permissionsIn(ev.message.channel).missing(perms)]
    gives, the names of the required capabilities the bot lacks in the
    channel. *)
Class Transport : Type := {
  ICommandMessage : Type;
  missing : ICommandMessage -> list string -> list string
}.

(** A permission predicate, applied to the message. *)
Definition PermissionHandler `{Transport} : Type := ICommandMessage -> bool.

(** How the promise of an execution handler settles: it resolves, or it
    rejects with whatever was thrown, an error of the classes of this module
    included (a handler may await the dispatch of another command); [at_]
    orders the rejections in time. *)
Inductive settlement : Type :=
| Resolves
| Rejects (at_ : nat) (e : Error).

(** An execution handler. *)
Definition ICommandExecute `{Transport} : Type :=
  ICommandMessage -> gmap string value -> settlement.

(** The fields of [class Command] (with those of [CommandBase]); the
    collector a command points to is passed to the one method that uses
    it. *)
Record Command `{Transport} : Type := {
  _execHandler : list ICommandExecute;
  _help : string;
  _manual : list string;
  _name : string;
  _alias : list string;
  _permissionHandler : list PermissionHandler;
  _arguments : list Argument;
  _permissions : list string
}.

(** What [validateArgs] returns; [result] holds the own properties of the
    object. *)
Record validated : Type := {
  result : gmap string value;
  remaining : string;
  errors : list ParseError
}.

(** What a dispatch does to the outside. *)
Inductive event : Type :=
| AuthorSend
| ChannelSend (missing : list string)
| Executed (handler : nat) (arguments : gmap string value).

Definition is_Executed (e : event) : bool :=
  match e with Executed _ _ => true | _ => false end.

Module CommandCollector.
Section WithTransport.
Context `{CaseMapping} `{Transport}.

(** [isValidCommandName(name)] *)
Definition isValidCommandName (name : string) : outcome bool :=
  if (String.length name <? 1)%nat
  then Throw (OtherError "Expect the length of command name more than 1")
  else if JS.has_white_space name
  then Throw (OtherError "Command should not contain spaces!")
  else Return true.

Definition getCommandNames (cmd : Command) : list string :=
  _name cmd :: _alias cmd.

(** [getAvailableCommands(name)], on the collector's [_commands]. *)
Definition getAvailableCommands (name : string) (_commands : list Command)
    : list Command :=
  let name := toLowerCase name in
  List.filter (fun cmd => JS.includes (getCommandNames cmd) name) _commands.

(** [new Command(cmd, collector)] *)
Definition new_Command (cmd : string) : Command :=
  {| _execHandler := []; _help := ""; _manual := []; _name := cmd;
     _alias := []; _permissionHandler := []; _arguments := [];
     _permissions := [] |}.

(** [registerCommand(name)]: the collector with the new command pushed. *)
Definition registerCommand (name : string) (_commands : list Command)
    : outcome (list Command) :=
  let name := toLowerCase name in
  match isValidCommandName name with
  | Throw e => Throw e
  | Return _ => Return (app _commands [new_Command name])
  end.

(** [isCommandCanSave(cmdName)] *)
Definition isCommandCanSave (cmdName : string) (_commands : list Command)
    : outcome bool :=
  let cmdName := toLowerCase cmdName in
  match isValidCommandName cmdName with
  | Throw e => Throw e
  | Return _ =>
      if (0 <? length (getAvailableCommands cmdName _commands))%nat
      then Return false else Return true
  end.

(** [createCommand(cmdName)] *)
Definition createCommand (cmdName : string) (_commands : list Command)
    : outcome (list Command) :=
  match isCommandCanSave cmdName _commands with
  | Throw e => Throw e
  | Return false => Throw (OtherError "This command already exist!")
  | Return true => registerCommand cmdName _commands
  end.

End WithTransport.
End CommandCollector.

Module Command.
Section WithTransport.
Context `{CaseMapping} `{Transport}.

(** [alias.forEach(a => CommandCollector.isValidCommandName(a))] *)
Fixpoint forEach_isValidCommandName (alias : list string) : outcome unit :=
  match alias with
  | [] => Return tt
  | a :: alias' =>
      match CommandCollector.isValidCommandName a with
      | Throw e => Throw e
      | Return _ => forEach_isValidCommandName alias'
      end
  end.

(** [alias(...alias)]: the command with the aliases pushed; [_commands] is
    the state of [this._collector].  The callback of [filter] returns the
    array of matching commands, which [filter] reads as a boolean. *)
Definition alias (alias : list string) (this : Command) (_commands : list Command)
    : outcome Command :=
  let alias := map toLowerCase alias in
  match forEach_isValidCommandName alias with
  | Throw e => Throw e
  | Return _ =>
      let kept :=
        List.filter
          (fun a => JS.truthy_array (CommandCollector.getAvailableCommands a _commands))
          alias in
      Return
        {| _execHandler := _execHandler this; _help := _help this;
           _manual := _manual this; _name := _name this;
           _alias := app (_alias this) kept;
           _permissionHandler := _permissionHandler this;
           _arguments := _arguments this; _permissions := _permissions this |}
  end.

Definition getAlias (this : Command) : list string := _alias this.
Definition getArguments (this : Command) : list Argument := _arguments this.

(** The builders used below. *)
Definition checkPermission (callback : PermissionHandler) (this : Command) : Command :=
  {| _execHandler := _execHandler this; _help := _help this;
     _manual := _manual this; _name := _name this; _alias := _alias this;
     _permissionHandler := app (_permissionHandler this) [callback];
     _arguments := _arguments this; _permissions := _permissions this |}.

Definition exec (callback : ICommandExecute) (this : Command) : Command :=
  {| _execHandler := app (_execHandler this) [callback]; _help := _help this;
     _manual := _manual this; _name := _name this; _alias := _alias this;
     _permissionHandler := _permissionHandler this;
     _arguments := _arguments this; _permissions := _permissions this |}.

Definition addArgument (arg : Argument) (this : Command) : Command :=
  {| _execHandler := _execHandler this; _help := _help this;
     _manual := _manual this; _name := _name this; _alias := _alias this;
     _permissionHandler := _permissionHandler this;
     _arguments := app (_arguments this) [arg];
     _permissions := _permissions this |}.

Definition requireBotPermission (perm : string) (this : Command) : Command :=
  {| _execHandler := _execHandler this; _help := _help this;
     _manual := _manual this; _name := _name this; _alias := _alias this;
     _permissionHandler := _permissionHandler this;
     _arguments := _arguments this;
     _permissions := app (_permissions this) [perm] |}.

(** One turn of the [forEach] of [validateArgs]: the [try] and its [catch]. *)
Definition validateArgs_arg (acc : validated) (arg : Argument) : outcome validated :=
  match validate arg (remaining acc) with
  | Return (val, rest) =>
      Return {| result := object_set (getName arg) val (result acc);
                remaining := JS.trim rest;
                errors := errors acc |}
  | Throw (Parse e) =>
      if isOptional arg
      then Return {| result := object_set (getName arg) (getDefault arg) (result acc);
                     remaining := remaining acc;
                     errors := app (errors acc) [e] |}
      else Throw (Parse e)
  | Throw e => Throw e
  end.

(** [this.getArguments().forEach(...)] *)
Fixpoint validateArgs_forEach (args : list Argument) (acc : validated)
    : outcome validated :=
  match args with
  | [] => Return acc
  | arg :: args' =>
      match validateArgs_arg acc arg with
      | Throw e => Throw e
      | Return acc' => validateArgs_forEach args' acc'
      end
  end.

(** [validateArgs(args)] *)
Definition validateArgs (this : Command) (args : string) : outcome validated :=
  validateArgs_forEach (getArguments this)
    {| result := ∅; remaining := JS.trim args; errors := [] |}.

(** [validate(args)] *)
Definition validate (this : Command) (args : string) : outcome (gmap string value) :=
  match validateArgs this args with
  | Throw e => Throw e
  | Return v =>
      if (0 <? String.length (remaining v))%nat
      then Throw (TooManyArgumentsError (head (errors v)))
      else Return (result v)
  end.

(** [isAllowed(client)]: every predicate is called, then all must hold. *)
Definition isAllowed (this : Command) (client : ICommandMessage) : bool :=
  forallb (fun r => r) (map (fun cb => cb client) (_permissionHandler this)).

(** [hasPermission(client)] *)
Definition hasPermission (this : Command) (client : ICommandMessage) : bool :=
  isAllowed this client.

(** The rejection that comes first in time, the earlier handler first
    among rejections of the same time. *)
Fixpoint first_rejection (settled : list settlement) : option (nat * Error) :=
  match settled with
  | [] => None
  | Resolves :: settled' => first_rejection settled'
  | Rejects t e :: settled' =>
      match first_rejection settled' with
      | Some (t', e') => if (t' <? t)%nat then Some (t', e') else Some (t, e)
      | None => Some (t, e)
      end
  end.

(** What [Promise.all] settles to: it rejects with the first rejection in
    time, and resolves when no handler rejects. *)
Definition Promise_all (settled : list settlement) : outcome unit :=
  match first_rejection settled with
  | Some (_, e) => Throw e
  | None => Return tt
  end.

(** [_dispatchCommand(ev)], with the arguments already validated. *)
Definition _dispatchCommand (this : Command) (arguments : gmap string value)
    (ev : ICommandMessage) : outcome unit * list event :=
  if negb (hasPermission this ev)
  then (Throw PermissionError, [])
  else
    (Promise_all (map (fun handle => handle ev arguments) (_execHandler this)),
     map (fun i => Executed i arguments) (seq 0 (length (_execHandler this)))).

(** [dispatch(args, ev, cmdUtil)] *)
Definition dispatch (this : Command) (args : string) (ev : ICommandMessage)
    : outcome unit * list event :=
  let missing := missing ev (_permissions this) in
  if JS.includes missing "SEND_MESSAGES" then (Return tt, [AuthorSend])
  else if (0 <? length missing)%nat then (Return tt, [ChannelSend missing])
  else
    match validate this args with
    | Throw e => (Throw e, [])
    | Return arguments => _dispatchCommand this arguments ev
    end.

End WithTransport.
End Command.

(** The built-in [help] command the module registers when it is loaded; its
    handler only replies to the channel, which is not modelled. *)
Definition help_command `{Transport} : Command :=
  {| _execHandler := [fun _ _ => Resolves];
     _help := "Use 'help <command>' to get more details";
     _manual := ["Display list of usable commands";
                 "You can specific command name to view how to use (eg. help <command name>)"];
     _name := "help";
     _alias := [];
     _permissionHandler := [];
     _arguments :=
       [String_ (StringArgument.optional (VString "") true
                   (StringArgument.setName "cmdName" StringArgument.new))];
     _permissions := [] |}.

(** [collector._commands] once the module is loaded. *)
Definition loaded `{Transport} : list Command := [help_command].

(** ** The prefix cache *)

Section Prefix.

(** The persistence behind the two callbacks, whatever it is. *)
Context {W : Type}.

(** [GetCommandPrefix]: the callback resolves to a prefix, or to nothing
    ([None] for [undefined] and [null]). *)
Definition GetCommandPrefix : Type := string -> W -> option string * W.

(** [SetCommandPrefix] *)
Definition SetCommandPrefix : Type := string -> string -> W -> W.

(** A call that left the module. *)
Inductive call : Type :=
| CallGetPrefix (guildId : string)
| CallSetPrefix (guildId prefix : string).

Definition is_CallGetPrefix (c : call) : bool :=
  match c with CallGetPrefix _ => true | CallSetPrefix _ _ => false end.

(** The module-level variables, the store and the calls made so far.  The
    object [guildPrefixCache] is a finite map: its keys are guild ids,
    strings of decimal digits, so that [in] never finds a property of
    [Object.prototype]. *)
Record machine : Type := {
  defaultPrefix : string;
  getPrefixCallback : option GetCommandPrefix;
  setPrefixCallback : option SetCommandPrefix;
  guildPrefixCache : gmap string string;
  store : W;
  calls : list call
}.

(** [guildPrefixCache[guildId] = prefix] *)
Definition cache_put (guildId prefix : string) (m : machine) : machine :=
  {| defaultPrefix := defaultPrefix m;
     getPrefixCallback := getPrefixCallback m;
     setPrefixCallback := setPrefixCallback m;
     guildPrefixCache := <[guildId := prefix]> (guildPrefixCache m);
     store := store m;
     calls := calls m |}.

(** [await getPrefixCallback(guildId)] *)
Definition call_getPrefixCallback (cb : GetCommandPrefix) (guildId : string)
    (m : machine) : option string * machine :=
  let '(r, w) := cb guildId (store m) in
  (r, {| defaultPrefix := defaultPrefix m;
         getPrefixCallback := getPrefixCallback m;
         setPrefixCallback := setPrefixCallback m;
         guildPrefixCache := guildPrefixCache m;
         store := w;
         calls := app (calls m) [CallGetPrefix guildId] |}).

(** [await setPrefixCallback(guildId, prefix)] *)
Definition call_setPrefixCallback (cb : SetCommandPrefix) (guildId prefix : string)
    (m : machine) : machine :=
  {| defaultPrefix := defaultPrefix m;
     getPrefixCallback := getPrefixCallback m;
     setPrefixCallback := setPrefixCallback m;
     guildPrefixCache := guildPrefixCache m;
     store := cb guildId prefix (store m);
     calls := app (calls m) [CallSetPrefix guildId prefix] |}.

(** [getPrefix(guildId)] *)
Definition getPrefix (guildId : string) (m : machine) : outcome string * machine :=
  match guildPrefixCache m !! guildId with
  | Some prefix => (Return prefix, m)
  | None =>
      match getPrefixCallback m with
      | Some getCb =>
          let '(result, m) := call_getPrefixCallback getCb guildId m in
          if negb (JS.truthy_string result) then
            match setPrefixCallback m with
            | Some setCb =>
                let m := call_setPrefixCallback setCb guildId (defaultPrefix m) m in
                (Return (defaultPrefix m), m)
            | None => (Throw (OtherError "setPrefixCallback is not a function"), m)
            end
          else
            let result := JS.or_empty result in
            (Return result, cache_put guildId result m)
      | None => (Return (defaultPrefix m), m)
      end
  end.

(** [setPrefix(guildId, prefix)] *)
Definition setPrefix (guildId prefix : string) (m : machine) : outcome unit * machine :=
  let m := cache_put guildId prefix m in
  match setPrefixCallback m with
  | Some setCb => (Return tt, call_setPrefixCallback setCb guildId prefix m)
  | None => (Return tt, m)
  end.

(** [setCallback(getPrefix, setPrefix)] *)
Definition setCallback (getCb : option GetCommandPrefix) (setCb : option SetCommandPrefix)
    (m : machine) : machine :=
  {| defaultPrefix := defaultPrefix m;
     getPrefixCallback := getCb;
     setPrefixCallback := setCb;
     guildPrefixCache := guildPrefixCache m;
     store := store m;
     calls := calls m |}.

(** The number of reads among the calls. *)
Definition reads (cs : list call) : nat := length (List.filter is_CallGetPrefix cs).

End Prefix.

Arguments machine W : clear implicits.
Arguments GetCommandPrefix W : clear implicits.
Arguments SetCommandPrefix W : clear implicits.

(** The module as it is loaded: ["!"] for the prefix, no callback, an empty
    cache. *)
Definition initial {W : Type} (w : W) : machine W :=
  {| defaultPrefix := "!"; getPrefixCallback := None; setPrefixCallback := None;
     guildPrefixCache := ∅; store := w; calls := [] |}.

(** ** Vocabulary of the statements *)

(** No U+0020 in the string: what a token of [split(" ")] is. *)
Fixpoint space_free (s : string) : bool :=
  match s with
  | EmptyString => true
  | String c s' => negb (Ascii.eqb c " ") && space_free s'
  end.

(** In the words of the specification: the first whitespace-delimited token
    of the input, up to the first whitespace character of any kind. *)
Fixpoint whitespace_token (s : string) : string :=
  match s with
  | EmptyString => EmptyString
  | String c s' => if JS.is_white_space c then EmptyString else String c (whitespace_token s')
  end.

(** A finite [Number]: neither [NaN] nor an infinity. *)
Definition is_finite (x : JS.number) : bool :=
  match x with
  | S754_zero _ | S754_finite _ _ _ => true
  | S754_infinity _ | S754_nan => false
  end.

(** A mantissa that is not negative, through the rounding of [SpecFloat]. *)
Definition shr_nonneg (mrs : shr_record) : Prop := (0 <= shr_m mrs)%Z.

(** A line feed. *)
Definition LF : string := String "010"%char EmptyString.

(** The digit ["1"] followed by 309 zeros: the decimal of [10 ^ 309]. *)
Definition ten_to_309 : string :=
  String "1"%char (string_of_list_ascii (repeat "0"%char 309)).

(** *** Instances to run the definitions on *)

Definition ascii_upper (c : ascii) : ascii :=
  let n := nat_of_ascii c in
  if (97 <=? n)%nat && (n <=? 122)%nat then ascii_of_nat (n - 32) else c.

Definition ascii_lower (c : ascii) : ascii :=
  let n := nat_of_ascii c in
  if (65 <=? n)%nat && (n <=? 90)%nat then ascii_of_nat (n + 32) else c.

Fixpoint map_string (f : ascii -> ascii) (s : string) : string :=
  match s with
  | EmptyString => EmptyString
  | String c s' => String (f c) (map_string f s')
  end.

(** The case mappings on the letters of ASCII. *)
Definition ascii_case : CaseMapping :=
  {| toUpperCase := map_string ascii_upper;
     toLowerCase := map_string ascii_lower;
     toUpperCase_empty := eq_refl;
     toLowerCase_empty := eq_refl |}.

(** A transport whose message is the list of capabilities the bot holds in
    the channel. *)
Definition held_transport : Transport :=
  {| ICommandMessage := list string;
     missing := fun held perms => List.filter (fun p => negb (JS.includes held p)) perms |}.

(** A store that keeps one prefix per guild. *)
Definition table_get : GetCommandPrefix (gmap string string) :=
  fun guildId w => (w !! guildId, w).

Definition table_set : SetCommandPrefix (gmap string string) :=
  fun guildId prefix w => <[guildId := prefix]> w.

(** ** The rest of the module: help texts, listing, prefix utility, the
    split of a message *)

(** [s.startsWith(p)] *)
Fixpoint startsWith (s p : string) {struct p} : bool :=
  match p with
  | EmptyString => true
  | String c p' =>
      match s with
      | EmptyString => false
      | String d s' => Ascii.eqb d c && startsWith s' p'
      end
  end.

(** [s.slice(n)], for [n] a length. *)
Fixpoint slice (n : nat) (s : string) : string :=
  match n, s with
  | O, _ => s
  | S _, EmptyString => EmptyString
  | S n', String _ s' => slice n' s'
  end.

Module CommandBase.
Section WithTransport.
Context `{Transport}.

Definition getCommandName (this : Command) : string := _name this.
Definition getHelp (this : Command) : string := _help this.

(** [hasHelp()] *)
Definition hasHelp (this : Command) : bool := negb (String.eqb (_help this) "").

(** [getManual()]: the lines joined by CR LF. *)
Definition getManual (this : Command) : string :=
  JS.join (String "013"%char (String "010"%char EmptyString)) (_manual this).

(** [hasManual()] *)
Definition hasManual (this : Command) : bool := (0 <? length (_manual this))%nat.

Definition help (text : string) (this : Command) : Command :=
  {| _execHandler := _execHandler this; _help := text;
     _manual := _manual this; _name := _name this; _alias := _alias this;
     _permissionHandler := _permissionHandler this;
     _arguments := _arguments this; _permissions := _permissions this |}.

Definition manual (text : string) (this : Command) : Command :=
  {| _execHandler := _execHandler this; _help := _help this;
     _manual := app (_manual this) [text]; _name := _name this;
     _alias := _alias this; _permissionHandler := _permissionHandler this;
     _arguments := _arguments this; _permissions := _permissions this |}.

Definition clearManual (this : Command) : Command :=
  {| _execHandler := _execHandler this; _help := _help this;
     _manual := []; _name := _name this;
     _alias := _alias this; _permissionHandler := _permissionHandler this;
     _arguments := _arguments this; _permissions := _permissions this |}.

(** The [getManual] of [getManualEmbed] and of the [help] handler: the
    manual, else the help text, else a fixed text. *)
Definition manual_text (cmd : Command) : string :=
  if hasManual cmd then getManual cmd
  else if hasHelp cmd then getHelp cmd
  else "No Manual available".

End WithTransport.
End CommandBase.

Module Help.
Section WithTransport.
Context `{Transport}.

(** [CommandCollector.checkPermissions(commands, client)]: every command
    is asked, then the commands are filtered by the position of the
    answers. *)
Definition checkPermissions (commands : list Command) (client : ICommandMessage)
    : list Command :=
  let result := map (fun cmd => Command.hasPermission cmd client) commands in
  map fst (List.filter snd (combine commands result)).

(** [getAvailableCommandsByPermission(client)] *)
Definition getAvailableCommandsByPermission (_commands : list Command)
    (client : ICommandMessage) : list Command :=
  checkPermissions _commands client.

(** The [while] loop of the [help] handler: [commands.splice(0, 25)] until
    nothing is left, one embed per turn.  [fuel] bounds the turns. *)
Fixpoint pages_loop {A : Type} (fuel : nat) (commands : list A) (embeds : list (list A))
    : list (list A) :=
  match fuel with
  | O => embeds
  | S fuel' =>
      if (0 <? length commands)%nat
      then pages_loop fuel' (skipn 25 commands) (app embeds [firstn 25 commands])
      else embeds
  end.

(** One turn per command is enough. *)
Definition pages {A : Type} (commands : list A) : list (list A) :=
  pages_loop (length commands) commands [].

(** The listing of [help] without a command name, for the prefix of the
    guild: the pairs (name with prefix, help text) are pushed to
    [commands], cut into pages, and every pair of a page becomes a field of
    its embed, the name between two pairs of asterisks. *)
Definition listing (commandPrefix : string) (_commands : list Command)
    (message : ICommandMessage) : list (list (string * string)) :=
  let cmdsWithHelp :=
    List.filter CommandBase.hasHelp (getAvailableCommandsByPermission _commands message) in
  let commands :=
    map (fun cmd => (commandPrefix +:+ CommandBase.getCommandName cmd,
                     CommandBase.getHelp cmd)) cmdsWithHelp in
  map (map (fun item => ("**" +:+ fst item +:+ "**", snd item))) (pages commands).

End WithTransport.
End Help.

(** The groups [command] and [args] of the regular expression that
    [messageHandler] matches the message against, with the flag [s]: at the
    start any number of non-whitespace characters (the group [command]), any
    number of whitespace characters, any number of characters of any kind
    (the group [args]), any number of whitespace characters, the end.
    Every quantifier is greedy and the first attempt matches, so [command]
    is the longest prefix without whitespace, the whitespace after it is
    skipped, and [args] is all the rest, its trailing whitespace included.
    Every message matches. *)
Fixpoint match_command_args (message : string) : string * string :=
  match message with
  | EmptyString => (EmptyString, EmptyString)
  | String c s' =>
      if JS.is_white_space c then (EmptyString, JS.trimStart message)
      else let '(command, args) := match_command_args s' in (String c command, args)
  end.

Module CommandUtility.
Section WithMachine.
Context `{CaseMapping} `{Transport} {W : Type}.

(** [getCommandPrefix(guildId)]: the instance is built with [getPrefix] and
    [setPrefix]. *)
Definition getCommandPrefix (guildId : string) (m : machine W)
    : outcome string * machine W :=
  getPrefix guildId m.

Definition setCommandPrefix (guildId prefix : string) (m : machine W)
    : outcome unit * machine W :=
  setPrefix guildId prefix m.

(** [isPossibleCommand(guildId, message)] *)
Definition isPossibleCommand (guildId message : string) (m : machine W)
    : outcome bool * machine W :=
  match getCommandPrefix guildId m with
  | (Return prefix, m) => (Return (startsWith message prefix), m)
  | (Throw e, m) => (Throw e, m)
  end.

(** [getAvailableCommands(guildId, message)], on the commands of the
    collector. *)
Definition getAvailableCommands (guildId message : string)
    (_commands : list Command) (m : machine W)
    : outcome (list Command) * machine W :=
  match getCommandPrefix guildId m with
  | (Return prefix, m) =>
      if negb (startsWith message prefix) then (Return [], m)
      else
        let cmdName := slice (String.length prefix) message in
        (Return (CommandCollector.getAvailableCommands cmdName _commands), m)
  | (Throw e, m) => (Throw e, m)
  end.

(** The part of [messageHandler] between its guards and its dispatches:
    [None] when the handler returns before it resolves a name, else the
    commands it goes on to dispatch and the argument text it gives them. *)
Definition messageHandler_resolve (guildId message : string)
    (_commands : list Command) (m : machine W)
    : outcome (option (list Command * string)) * machine W :=
  match isPossibleCommand guildId message m with
  | (Throw e, m) => (Throw e, m)
  | (Return false, m) => (Return None, m)
  | (Return true, m) =>
      let '(command, args) := match_command_args message in
      match getAvailableCommands guildId command _commands m with
      | (Throw e, m) => (Throw e, m)
      | (Return commands, m) => (Return (Some (commands, args)), m)
      end
  end.

(** The same part of [executeCommand]: the prefix of the guild is put
    before [cmd], and the handler goes on as [messageHandler] does. *)
Definition executeCommand_resolve (guildId cmd : string)
    (_commands : list Command) (m : machine W)
    : outcome (option (list Command * string)) * machine W :=
  match getCommandPrefix guildId m with
  | (Throw e, m) => (Throw e, m)
  | (Return prefix, m) =>
      let cmd := prefix +:+ cmd in
      match isPossibleCommand guildId cmd m with
      | (Throw e, m) => (Throw e, m)
      | (Return false, m) => (Return None, m)
      | (Return true, m) =>
          let '(command, args) := match_command_args cmd in
          match getAvailableCommands guildId command _commands m with
          | (Throw e, m) => (Throw e, m)
          | (Return commands, m) => (Return (Some (commands, args)), m)
          end
      end
  end.

End WithMachine.
End CommandUtility.

(** *** More vocabulary *)

(** A name [isValidCommandName] lets through. *)
Definition valid_name (name : string) : bool :=
  (1 <=? String.length name)%nat && negb (JS.has_white_space name).

(** All the characters are whitespace. *)
Fixpoint all_white_space (s : string) : bool :=
  match s with
  | EmptyString => true
  | String c s' => JS.is_white_space c && all_white_space s'
  end.

(** The names of a collector are valid and no two commands share one. *)
Definition names_ok `{Transport} (_commands : list Command) : Prop :=
  NoDup (map _name _commands)
  /\ Forall (fun cmd => valid_name (_name cmd) = true) _commands.

(** No empty prefix in the cache, and the default is not empty. *)
Definition prefixes_not_empty {W : Type} (m : machine W) : Prop :=
  defaultPrefix m <> ""
  /\ forall g p, guildPrefixCache m !! g = Some p -> p <> "".

(** * Part II: properties *)

(** ** Splitting on the first space *)

Lemma split_not_nil (sep : ascii) (s : string) : JS.split sep s <> [].
Proof.
  destruct s as [|c s]; simpl; [discriminate|].
  destruct (Ascii.eqb c sep); [discriminate|].
  destruct (JS.split sep s); discriminate.
Qed.

Lemma join_split (sep : ascii) (s : string) :
  JS.join (String sep EmptyString) (JS.split sep s) = s.
Proof.
  induction s as [|c s IH]; [reflexivity|].
  simpl. destruct (Ascii.eqb c sep) eqn:E.
  - apply Ascii.eqb_eq in E. subst c.
    pose proof (split_not_nil sep s) as Hne.
    destruct (JS.split sep s) as [|t ts]; [congruence|].
    change (JS.join (String sep "") ("" :: t :: ts))
      with (String sep (JS.join (String sep "") (t :: ts))).
    now rewrite IH.
  - pose proof (split_not_nil sep s) as Hne.
    destruct (JS.split sep s) as [|t ts]; [congruence|].
    rewrite <- IH. destruct ts; reflexivity.
Qed.

Lemma split_space_free (token : string) :
  space_free token = true -> JS.split " " token = [token].
Proof.
  induction token as [|c t IH]; [reflexivity|].
  simpl. intros Hc. apply andb_prop in Hc as [Hc Ht].
  destruct (Ascii.eqb c " "); [discriminate|].
  now rewrite (IH Ht).
Qed.

Lemma split_first_space (token tail : string) :
  space_free token = true ->
  JS.split " " (token +:+ " " +:+ tail) = token :: JS.split " " tail.
Proof.
  induction token as [|c t IH]; [reflexivity|].
  simpl. intros Hc. apply andb_prop in Hc as [Hc Ht].
  destruct (Ascii.eqb c " "); [discriminate|].
  change (JS.split " " (t +:+ String " " tail)) with (JS.split " " (t +:+ " " +:+ tail)).
  now rewrite (IH Ht).
Qed.

(** What the three lines at the head of both [validate]s compute. *)
Lemma shift_split_token (token : string) :
  space_free token = true ->
  let '(str, argArray) := JS.shift (JS.split " " token) in
  JS.or_empty str = token /\ JS.join " " argArray = "".
Proof.
  intros Ht. rewrite (split_space_free _ Ht). simpl.
  split; [now destruct token | reflexivity].
Qed.

Lemma shift_split_first_space (token tail : string) :
  space_free token = true ->
  let '(str, argArray) := JS.shift (JS.split " " (token +:+ " " +:+ tail)) in
  JS.or_empty str = token /\ JS.join " " argArray = tail.
Proof.
  intros Ht. rewrite (split_first_space _ _ Ht). simpl.
  split; [now destruct token | apply (join_split " ")].
Qed.

(** ** String arguments *)

Section StringArgumentProperties.
Context `{CaseMapping}.

Lemma StringArgument_validate_token (a : StringArgument) (token : string) :
  space_free token = true ->
  StringArgument.validate a token = StringArgument._validate (String_ a) a token "".
Proof.
  intros Ht. unfold StringArgument.validate.
  pose proof (shift_split_token token Ht) as Hs.
  destruct (JS.shift (JS.split " " token)) as [str argArray].
  destruct Hs as [-> ->]. reflexivity.
Qed.

Lemma StringArgument_validate_first_space (a : StringArgument) (token tail : string) :
  space_free token = true ->
  StringArgument.validate a (token +:+ " " +:+ tail)
  = StringArgument._validate (String_ a) a token tail.
Proof.
  intros Ht. unfold StringArgument.validate.
  pose proof (shift_split_first_space token tail Ht) as Hs.
  destruct (JS.shift (JS.split " " (token +:+ " " +:+ tail))) as [str argArray].
  destruct Hs as [-> ->]. reflexivity.
Qed.

Lemma fold_case_builders (a : StringArgument) (s : string) :
  StringArgument.fold_case (StringArgument.forceUpperCase a) s = toUpperCase s
  /\ StringArgument.fold_case (StringArgument.forceLowerCase a) s = toLowerCase s
  /\ StringArgument.fold_case StringArgument.new s = s.
Proof. repeat split. Qed.

Lemma _validate_in_order (this : Argument) (a : StringArgument) (arg rest : string) :
  let cand := StringArgument.fold_case a arg in
  let len := String.length cand in
  (forall n, _minlen a = Some n -> (Z.of_nat len < n)%Z ->
     StringArgument._validate this a arg rest
     = throw_ParseError (StringTooShort n len) this)
  /\ (forall n, (forall m, _minlen a = Some m -> (m <= Z.of_nat len)%Z) ->
     _maxlen a = Some n -> (n < Z.of_nat len)%Z ->
     StringArgument._validate this a arg rest
     = throw_ParseError (StringTooLong n len) this)
  /\ (forall w, (forall m, _minlen a = Some m -> (m <= Z.of_nat len)%Z) ->
     (forall m, _maxlen a = Some m -> (Z.of_nat len <= m)%Z) ->
     _whitelist a = Some w -> JS.includes w cand = false ->
     StringArgument._validate this a arg rest
     = throw_ParseError (NotInWhitelist cand w) this)
  /\ (forall r, (forall m, _minlen a = Some m -> (m <= Z.of_nat len)%Z) ->
     (forall m, _maxlen a = Some m -> (Z.of_nat len <= m)%Z) ->
     (forall w, _whitelist a = Some w -> JS.includes w cand = true) ->
     _regex a = Some r -> r cand = false ->
     StringArgument._validate this a arg rest
     = throw_ParseError (RegexMismatch cand) this)
  /\ ((forall m, _minlen a = Some m -> (m <= Z.of_nat len)%Z) ->
     (forall m, _maxlen a = Some m -> (Z.of_nat len <= m)%Z) ->
     (forall w, _whitelist a = Some w -> JS.includes w cand = true) ->
     (forall r, _regex a = Some r -> r cand = true) ->
     StringArgument._validate this a arg rest = Return (VString cand, rest)).
Proof.
  intros cand len.
  assert (Hmin : forall n, _minlen a = Some n -> (Z.of_nat len < n)%Z ->
            StringArgument.check_minlen a cand = Some (StringTooShort n len)).
  { intros n E L. unfold StringArgument.check_minlen. rewrite E.
    destruct (Z.ltb_spec (Z.of_nat (String.length cand)) n);
      [reflexivity | unfold len in L; lia]. }
  assert (Hmin' : (forall m, _minlen a = Some m -> (m <= Z.of_nat len)%Z) ->
            StringArgument.check_minlen a cand = None).
  { intros L. unfold StringArgument.check_minlen.
    destruct (_minlen a) as [m|]; [|reflexivity].
    specialize (L m eq_refl).
    destruct (Z.ltb_spec (Z.of_nat (String.length cand)) m);
      [unfold len in L; lia | reflexivity]. }
  assert (Hmax : forall n, _maxlen a = Some n -> (n < Z.of_nat len)%Z ->
            StringArgument.check_maxlen a cand = Some (StringTooLong n len)).
  { intros n E L. unfold StringArgument.check_maxlen. rewrite E.
    destruct (Z.ltb_spec n (Z.of_nat (String.length cand)));
      [reflexivity | unfold len in L; lia]. }
  assert (Hmax' : (forall m, _maxlen a = Some m -> (Z.of_nat len <= m)%Z) ->
            StringArgument.check_maxlen a cand = None).
  { intros L. unfold StringArgument.check_maxlen.
    destruct (_maxlen a) as [m|]; [|reflexivity].
    specialize (L m eq_refl).
    destruct (Z.ltb_spec m (Z.of_nat (String.length cand)));
      [unfold len in L; lia | reflexivity]. }
  assert (Hwl' : (forall w, _whitelist a = Some w -> JS.includes w cand = true) ->
            StringArgument.check_whitelist a cand = None).
  { intros L. unfold StringArgument.check_whitelist.
    destruct (_whitelist a) as [w|]; [|reflexivity]. now rewrite (L w eq_refl). }
  assert (Hre' : (forall r, _regex a = Some r -> r cand = true) ->
            StringArgument.check_regex a cand = None).
  { intros L. unfold StringArgument.check_regex.
    destruct (_regex a) as [r|]; [|reflexivity]. now rewrite (L r eq_refl). }
  unfold StringArgument._validate. fold cand.
  repeat split.
  - intros n E L. now rewrite (Hmin n E L).
  - intros n L1 E L. now rewrite (Hmin' L1), (Hmax n E L).
  - intros w L1 L2 E L. rewrite (Hmin' L1), (Hmax' L2).
    unfold StringArgument.check_whitelist. now rewrite E, L.
  - intros r L1 L2 L3 E L. rewrite (Hmin' L1), (Hmax' L2), (Hwl' L3).
    unfold StringArgument.check_regex. now rewrite E, L.
  - intros L1 L2 L3 L4. now rewrite (Hmin' L1), (Hmax' L2), (Hwl' L3), (Hre' L4).
Qed.

Lemma _validate_length_interval (this : Argument) (a : StringArgument)
    (arg rest : string) (lo hi : Z) :
  _minlen a = Some lo -> _maxlen a = Some hi ->
  _whitelist a = None -> _regex a = None ->
  is_Return (StringArgument._validate this a arg rest) = true
  <-> (lo <= Z.of_nat (String.length (StringArgument.fold_case a arg)) <= hi)%Z.
Proof.
  intros Emin Emax Ewl Ere.
  unfold StringArgument._validate, StringArgument.check_minlen,
    StringArgument.check_maxlen, StringArgument.check_whitelist,
    StringArgument.check_regex.
  rewrite Emin, Emax, Ewl, Ere.
  set (len := Z.of_nat (String.length (StringArgument.fold_case a arg))).
  destruct (Z.ltb_spec len lo); simpl.
  - split; [discriminate | lia].
  - destruct (Z.ltb_spec hi len); simpl.
    + split; [discriminate | lia].
    + split; [lia | reflexivity].
Qed.

End StringArgumentProperties.

(** ** Number arguments *)

Lemma shr_1_nonneg (mrs : shr_record) : shr_nonneg mrs -> shr_nonneg (shr_1 mrs).
Proof.
  unfold shr_nonneg. destruct mrs as [m r s]. simpl.
  destruct m as [|p|p]; [easy | destruct p; simpl; lia | lia].
Qed.

Lemma iter_pos_shr_1_nonneg (p : positive) :
  forall mrs, shr_nonneg mrs -> shr_nonneg (SpecFloat.iter_pos shr_1 p mrs).
Proof.
  induction p as [p IH|p IH|]; simpl; intros mrs Hm.
  - apply IH, IH, shr_1_nonneg, Hm.
  - apply IH, IH, Hm.
  - apply shr_1_nonneg, Hm.
Qed.

Lemma shr_fexp_nonneg (m e : Z) (l : location) :
  (0 <= m)%Z -> shr_nonneg (fst (shr_fexp JS.prec JS.emax m e l)).
Proof.
  intros Hm. unfold shr_fexp, shr.
  assert (H0 : shr_nonneg (shr_record_of_loc m l)).
  { unfold shr_nonneg. destruct l as [|[]]; exact Hm. }
  destruct (fexp JS.prec JS.emax (Zdigits2 m + e) - e)%Z; simpl;
    [exact H0 | now apply iter_pos_shr_1_nonneg | exact H0].
Qed.

Lemma round_nearest_even_nonneg (m : Z) (l : location) :
  (0 <= m)%Z -> (0 <= round_nearest_even m l)%Z.
Proof.
  intros Hm. unfold round_nearest_even.
  destruct l as [|[]]; [lia | destruct (Z.even m); lia | lia | lia].
Qed.

Lemma binary_round_aux_not_nan (s : bool) (m e : Z) (l : location) :
  (0 <= m)%Z -> binary_round_aux JS.prec JS.emax s m e l <> S754_nan.
Proof.
  intros Hm. unfold binary_round_aux.
  pose proof (shr_fexp_nonneg m e l Hm) as H1.
  destruct (shr_fexp JS.prec JS.emax m e l) as [mrs' e']. simpl in H1.
  pose proof (shr_fexp_nonneg _ e' loc_Exact
                (round_nearest_even_nonneg _ (loc_of_shr_record mrs') H1)) as H2.
  destruct (shr_fexp JS.prec JS.emax
              (round_nearest_even (shr_m mrs') (loc_of_shr_record mrs')) e' loc_Exact)
    as [mrs'' e''].
  simpl in H2. unfold shr_nonneg in H2.
  destruct (shr_m mrs'') as [|p|p]; [discriminate | | lia].
  destruct (e'' <=? JS.emax - JS.prec)%Z; discriminate.
Qed.

Lemma SFdiv_finite_not_nan (s1 s2 : bool) (m1 m2 : positive) (e1 e2 : Z) :
  SFdiv JS.prec JS.emax (S754_finite s1 m1 e1) (S754_finite s2 m2 e2) <> S754_nan.
Proof.
  unfold SFdiv, SFdiv_core_binary.
  set (e' := Z.min _ _). set (m' := match (e1 - e2 - e')%Z with Zpos _ => _ | Z0 => _ | Zneg _ => _ end).
  assert (Hm' : (0 <= m')%Z).
  { unfold m'. destruct (e1 - e2 - e')%Z; [lia | | lia].
    apply Z.shiftl_nonneg. lia. }
  pose proof (Z.div_eucl_eq m' (Zpos m2) ltac:(lia)) as Hq.
  pose proof (Z.mod_pos_bound m' (Zpos m2) ltac:(lia)) as Hr.
  pose proof (Z.div_pos m' (Zpos m2) Hm' ltac:(lia)) as Hd.
  unfold Z.modulo in Hr. unfold Z.div in Hd.
  destruct (Z.div_eucl m' (Zpos m2)) as [q r].
  apply binary_round_aux_not_nan. exact Hd.
Qed.

(** A token of the grammar never parses to [NaN]: the second half of the
    format test never fires on its own. *)
Lemma parseFloat_literal_not_NaN (arg : string) :
  JS.is_decimal_literal arg = true -> JS.isNaN (JS.parseFloat arg) = false.
Proof.
  unfold JS.is_decimal_literal, JS.parseFloat.
  destruct (JS.decimal_literal arg) as [[[neg int] frac]|]; [intros _ | discriminate].
  destruct (JS.digits_value 0 (int +:+ frac)) as [|m|m]; [reflexivity | | reflexivity].
  pose proof (SFdiv_finite_not_nan neg false m
                (Z.to_pos (10 ^ Z.of_nat (String.length frac))) 0 0) as Hn.
  destruct (SFdiv _ _ _ _); [reflexivity | reflexivity | congruence | reflexivity].
Qed.

Lemma check_format_literal (arg : string) :
  NumberArgument.check_format arg (JS.parseFloat arg)
  = if JS.is_decimal_literal arg then None else Some (NotAValidNumber arg).
Proof.
  unfold NumberArgument.check_format.
  destruct (JS.is_decimal_literal arg) eqn:E; [|reflexivity].
  now rewrite (parseFloat_literal_not_NaN arg E).
Qed.

Lemma NumberArgument_validate_first_space (a : NumberArgument) (token tail : string) :
  space_free token = true ->
  NumberArgument.validate a (token +:+ " " +:+ tail)
  = match NumberArgument.validate a token with
    | Return (val, _) => Return (val, tail)
    | Throw e => Throw e
    end.
Proof.
  intros Ht. unfold NumberArgument.validate.
  pose proof (shift_split_token token Ht) as Hs.
  pose proof (shift_split_first_space token tail Ht) as Hs'.
  destruct (JS.shift (JS.split " " token)) as [str argArray].
  destruct (JS.shift (JS.split " " (token +:+ " " +:+ tail))) as [str' argArray'].
  destruct Hs as [-> ->]. destruct Hs' as [-> ->].
  repeat match goal with
         | |- context [match ?c with Some _ => _ | None => _ end] => destruct c
         end; reflexivity.
Qed.

(** On a token, [validate] is the chain of the six checks on the parsed
    number. *)
Lemma NumberArgument_validate_token (a : NumberArgument) (token : string) :
  space_free token = true ->
  NumberArgument.validate a token
  = let this := Number a in
    let num := JS.parseFloat token in
    match NumberArgument.check_format token num with Some msg => throw_ParseError msg this | None =>
    match NumberArgument.check_min a num with Some msg => throw_ParseError msg this | None =>
    match NumberArgument.check_max a num with Some msg => throw_ParseError msg this | None =>
    match NumberArgument.check_int a num with Some msg => throw_ParseError msg this | None =>
    match NumberArgument.check_positive a num with Some msg => throw_ParseError msg this | None =>
    match NumberArgument.check_negative a num with Some msg => throw_ParseError msg this | None =>
    Return (VNumber num, "")
    end end end end end end.
Proof.
  intros Ht. unfold NumberArgument.validate.
  pose proof (shift_split_token token Ht) as Hs.
  destruct (JS.shift (JS.split " " token)) as [str argArray].
  destruct Hs as [-> ->]. reflexivity.
Qed.

Lemma check_min_None (a : NumberArgument) (num : JS.number) :
  (forall lo, _min a = Some lo -> JS.gt lo num = false) ->
  NumberArgument.check_min a num = None.
Proof.
  intros L. unfold NumberArgument.check_min.
  destruct (_min a) as [lo|]; [|reflexivity]. now rewrite (L lo eq_refl).
Qed.

Lemma check_max_None (a : NumberArgument) (num : JS.number) :
  (forall hi, _max a = Some hi -> JS.lt hi num = false) ->
  NumberArgument.check_max a num = None.
Proof.
  intros L. unfold NumberArgument.check_max.
  destruct (_max a) as [hi|]; [|reflexivity]. now rewrite (L hi eq_refl).
Qed.

Lemma check_int_None (a : NumberArgument) (num : JS.number) :
  (_int a = true -> JS.strict_neq (JS.rem_one num) JS.zero = false) ->
  NumberArgument.check_int a num = None.
Proof.
  intros L. unfold NumberArgument.check_int.
  destruct (_int a); [|reflexivity]. now rewrite (L eq_refl).
Qed.

Lemma check_positive_None (a : NumberArgument) (num : JS.number) :
  (_forcePositive a = true -> JS.le num JS.zero = false) ->
  NumberArgument.check_positive a num = None.
Proof.
  intros L. unfold NumberArgument.check_positive.
  destruct (_forcePositive a); [|reflexivity]. now rewrite (L eq_refl).
Qed.

Lemma check_negative_None (a : NumberArgument) (num : JS.number) :
  (_forceNegative a = true -> JS.ge num JS.zero = false) ->
  NumberArgument.check_negative a num = None.
Proof.
  intros L. unfold NumberArgument.check_negative.
  destruct (_forceNegative a); [|reflexivity]. now rewrite (L eq_refl).
Qed.

(** With [integer()], a number with a fractional remainder does not get
    through, whichever check stops it. *)
Lemma integer_rejects_fraction (a : NumberArgument) (token : string) :
  space_free token = true ->
  _int a = true ->
  JS.strict_neq (JS.rem_one (JS.parseFloat token)) JS.zero = true ->
  is_ParseError (NumberArgument.validate a token) = true.
Proof.
  intros Ht Hi Hr. rewrite (NumberArgument_validate_token a token Ht). simpl.
  destruct (NumberArgument.check_format _ _); [reflexivity|].
  destruct (NumberArgument.check_min _ _); [reflexivity|].
  destruct (NumberArgument.check_max _ _); [reflexivity|].
  unfold NumberArgument.check_int. rewrite Hi, Hr. reflexivity.
Qed.

Lemma is_ParseError_first_space (a : NumberArgument) (token tail : string) :
  space_free token = true ->
  is_ParseError (NumberArgument.validate a (token +:+ " " +:+ tail))
  = is_ParseError (NumberArgument.validate a token).
Proof.
  intros Ht. rewrite (NumberArgument_validate_first_space a token tail Ht).
  destruct (NumberArgument.validate a token) as [[val rest]|e]; reflexivity.
Qed.

(** C6, as amended: a Number Argument takes the input up to the first space
    (U+0020) as its token; it throws a ParseError when the token is not of
    the grammar -?\d+(\.\d+)?, and a token of the grammar always parses to a
    number that is not NaN (an infinite one is let through); the checks
    then run in the order min, max, integer, positive, negative, the first
    that fails giving the error; with integer() a number with a non-zero
    remainder is refused with a ParseError, and "3.0" gives the number 3. *)
Theorem NumberArgument_validate_checks_in_order
    (a : NumberArgument) (token tail : string) :
  space_free token = true ->
  let num := JS.parseFloat token in
  let this := Number a in
  let min_ok := forall lo, _min a = Some lo -> JS.gt lo num = false in
  let max_ok := forall hi, _max a = Some hi -> JS.lt hi num = false in
  let int_ok := _int a = true -> JS.strict_neq (JS.rem_one num) JS.zero = false in
  let positive_ok := _forcePositive a = true -> JS.le num JS.zero = false in
  let negative_ok := _forceNegative a = true -> JS.ge num JS.zero = false in
  NumberArgument.validate a (token +:+ " " +:+ tail)
  = match NumberArgument.validate a token with
    | Return (val, _) => Return (val, tail)
    | Throw e => Throw e
    end
  /\ (JS.is_decimal_literal token = false ->
      NumberArgument.validate a token = throw_ParseError (NotAValidNumber token) this)
  /\ (JS.is_decimal_literal token = true ->
      JS.isNaN num = false
      /\ (forall lo, _min a = Some lo -> JS.gt lo num = true ->
          NumberArgument.validate a token
          = throw_ParseError (NumberTooSmall lo num) this)
      /\ (forall hi, min_ok -> _max a = Some hi -> JS.lt hi num = true ->
          NumberArgument.validate a token
          = throw_ParseError (NumberTooLarge hi num) this)
      /\ (min_ok -> max_ok ->
          _int a = true -> JS.strict_neq (JS.rem_one num) JS.zero = true ->
          NumberArgument.validate a token = throw_ParseError (NotAnInteger num) this)
      /\ (min_ok -> max_ok -> int_ok ->
          _forcePositive a = true -> JS.le num JS.zero = true ->
          NumberArgument.validate a token = throw_ParseError (NotPositive num) this)
      /\ (min_ok -> max_ok -> int_ok -> positive_ok ->
          _forceNegative a = true -> JS.ge num JS.zero = true ->
          NumberArgument.validate a token = throw_ParseError (NotNegative num) this)
      /\ (min_ok -> max_ok -> int_ok -> positive_ok -> negative_ok ->
          NumberArgument.validate a token = Return (VNumber num, "")))
  /\ (_int a = true -> JS.strict_neq (JS.rem_one num) JS.zero = true ->
      is_ParseError (NumberArgument.validate a token) = true
      /\ is_ParseError (NumberArgument.validate a (token +:+ " " +:+ tail)) = true)
  /\ NumberArgument.validate (NumberArgument.integer NumberArgument.new) "3.0"
     = Return (VNumber (JS.of_Z 3), "").
Proof.
  intros Ht num this min_ok max_ok int_ok positive_ok negative_ok.
  split; [apply (NumberArgument_validate_first_space a token tail Ht)|].
  rewrite (NumberArgument_validate_token a token Ht).
  cbv zeta. rewrite (check_format_literal token). fold num this.
  split; [intros ->; reflexivity|].
  split.
  - intros Hlit. rewrite Hlit.
    split; [apply (parseFloat_literal_not_NaN token Hlit)|].
    split.
    { intros lo E L. unfold NumberArgument.check_min. now rewrite E, L. }
    split.
    { intros hi L1 E L. rewrite (check_min_None a num L1).
      unfold NumberArgument.check_max. now rewrite E, L. }
    split.
    { intros L1 L2 E L. rewrite (check_min_None a num L1), (check_max_None a num L2).
      unfold NumberArgument.check_int. now rewrite E, L. }
    split.
    { intros L1 L2 L3 E L.
      rewrite (check_min_None a num L1), (check_max_None a num L2),
        (check_int_None a num L3).
      unfold NumberArgument.check_positive. now rewrite E, L. }
    split.
    { intros L1 L2 L3 L4 E L.
      rewrite (check_min_None a num L1), (check_max_None a num L2),
        (check_int_None a num L3), (check_positive_None a num L4).
      unfold NumberArgument.check_negative. now rewrite E, L. }
    intros L1 L2 L3 L4 L5.
    now rewrite (check_min_None a num L1), (check_max_None a num L2),
      (check_int_None a num L3), (check_positive_None a num L4),
      (check_negative_None a num L5).
  - split; [|vm_compute; reflexivity].
    intros Hi Hr.
    rewrite (is_ParseError_first_space a token tail Ht).
    split; [|exact (integer_rejects_fraction a token Ht Hi Hr)].
    destruct (JS.is_decimal_literal token); [|reflexivity].
    destruct (NumberArgument.check_min _ _); [reflexivity|].
    destruct (NumberArgument.check_max _ _); [reflexivity|].
    unfold NumberArgument.check_int. fold num in Hr. rewrite Hi, Hr. reflexivity.
Qed.

Lemma NumberArgument_validate_checks_in_order_witness :
  space_free "2.5" = true
  /\ is_ParseError
       (NumberArgument.validate (NumberArgument.integer NumberArgument.new) "2.5 x")
     = true.
Proof.
  split; [reflexivity|].
  destruct (NumberArgument_validate_checks_in_order
              (NumberArgument.integer NumberArgument.new) "2.5" "x" eq_refl)
    as (_ & _ & _ & Hint & _).
  apply Hint; vm_compute; reflexivity.
Defined.

(** C6, as stated, fails twice.  The decimal of 10^309 is a token of the
    grammar that parses to no finite number, and it is accepted with the
    value Infinity.  And on "12", a line feed, "34" the first
    whitespace-delimited token is "12", a valid finite number, yet the
    Argument throws a ParseError: only U+0020 delimits the token. *)
Lemma NumberArgument_validate_not_finite_not_whitespace :
  (JS.is_decimal_literal ten_to_309 = true
   /\ is_finite (JS.parseFloat ten_to_309) = false
   /\ NumberArgument.validate NumberArgument.new ten_to_309
      = Return (VNumber (S754_infinity false), ""))
  /\ (whitespace_token ("12" +:+ LF +:+ "34") = "12"
      /\ JS.is_decimal_literal "12" = true
      /\ is_finite (JS.parseFloat "12") = true
      /\ is_ParseError
           (NumberArgument.validate NumberArgument.new ("12" +:+ LF +:+ "34"))
         = true).
Proof. vm_compute. repeat split. Qed.

Section StringArgumentClaims.
Context `{CaseMapping}.

(** C7, as amended: a String Argument cuts the input at the first space
    (U+0020): what is before it is the candidate, what is after it is the
    rest, untouched.  The candidate is case-folded (the builder called last
    decides between upper and lower), then checked against the minimum
    length, the maximum length, the whitelist and the regular expression,
    in this order, and the first check that fails throws its ParseError.
    With only min=lo and max=hi configured, validation succeeds exactly
    when the length of the folded candidate is in [lo, hi]; without case
    folding the folded candidate is the token itself. *)
Theorem StringArgument_validate_checks_in_order
    (a : StringArgument) (token tail : string) :
  space_free token = true ->
  let this := String_ a in
  let cand := StringArgument.fold_case a token in
  let len := String.length cand in
  let min_ok := forall m, _minlen a = Some m -> (m <= Z.of_nat len)%Z in
  let max_ok := forall m, _maxlen a = Some m -> (Z.of_nat len <= m)%Z in
  let whitelist_ok := forall w, _whitelist a = Some w -> JS.includes w cand = true in
  let regex_ok := forall r, _regex a = Some r -> r cand = true in
  (StringArgument.validate a token = StringArgument._validate this a token ""
   /\ StringArgument.validate a (token +:+ " " +:+ tail)
      = StringArgument._validate this a token tail)
  /\ (forall a0 s,
      StringArgument.fold_case (StringArgument.forceUpperCase a0) s = toUpperCase s
      /\ StringArgument.fold_case (StringArgument.forceLowerCase a0) s = toLowerCase s
      /\ StringArgument.fold_case StringArgument.new s = s)
  /\ (_uppercase a = false -> _lowercase a = false -> cand = token)
  /\ ((forall n, _minlen a = Some n -> (Z.of_nat len < n)%Z ->
       StringArgument.validate a (token +:+ " " +:+ tail)
       = throw_ParseError (StringTooShort n len) this)
      /\ (forall n, min_ok -> _maxlen a = Some n -> (n < Z.of_nat len)%Z ->
       StringArgument.validate a (token +:+ " " +:+ tail)
       = throw_ParseError (StringTooLong n len) this)
      /\ (forall w, min_ok -> max_ok ->
       _whitelist a = Some w -> JS.includes w cand = false ->
       StringArgument.validate a (token +:+ " " +:+ tail)
       = throw_ParseError (NotInWhitelist cand w) this)
      /\ (forall r, min_ok -> max_ok -> whitelist_ok ->
       _regex a = Some r -> r cand = false ->
       StringArgument.validate a (token +:+ " " +:+ tail)
       = throw_ParseError (RegexMismatch cand) this)
      /\ (min_ok -> max_ok -> whitelist_ok -> regex_ok ->
       StringArgument.validate a (token +:+ " " +:+ tail)
       = Return (VString cand, tail)))
  /\ (forall lo hi,
      _minlen a = Some lo -> _maxlen a = Some hi ->
      _whitelist a = None -> _regex a = None ->
      (is_Return (StringArgument.validate a token) = true
       <-> (lo <= Z.of_nat len <= hi)%Z)
      /\ (is_Return (StringArgument.validate a (token +:+ " " +:+ tail)) = true
          <-> (lo <= Z.of_nat len <= hi)%Z)).
Proof.
  intros Ht this cand len min_ok max_ok whitelist_ok regex_ok.
  rewrite (StringArgument_validate_token a token Ht).
  rewrite (StringArgument_validate_first_space a token tail Ht).
  split; [split; reflexivity|].
  split; [intros a0 s; apply fold_case_builders|].
  split.
  { intros Hu Hl. unfold cand, StringArgument.fold_case. now rewrite Hu, Hl. }
  split; [apply (_validate_in_order (String_ a) a token tail)|].
  intros lo hi Emin Emax Ewl Ere.
  split; apply _validate_length_interval; assumption.
Qed.

End StringArgumentClaims.

Lemma StringArgument_validate_checks_in_order_witness :
  space_free "abc" = true
  /\ (is_Return
        (@StringArgument.validate ascii_case
           (StringArgument.min 2 (StringArgument.max 4 StringArgument.new)) "abc d e")
      = true <-> (2 <= Z.of_nat 3 <= 4)%Z).
Proof.
  split; [reflexivity|].
  destruct (@StringArgument_validate_checks_in_order ascii_case
              (StringArgument.min 2 (StringArgument.max 4 StringArgument.new))
              "abc" "d e" eq_refl)
    as (_ & _ & _ & _ & Hiff).
  destruct (Hiff 2%Z 4%Z eq_refl eq_refl eq_refl eq_refl) as [_ Hsp].
  exact Hsp.
Defined.

(** C7, as stated, fails on "a", a line feed, "b c": the first whitespace
    boundary is the line feed and the first token is "a", but the candidate
    the Argument returns runs up to the first space. *)
Lemma StringArgument_validate_not_whitespace :
  whitespace_token ("a" +:+ LF +:+ "b c") = "a"
  /\ @StringArgument.validate ascii_case StringArgument.new ("a" +:+ LF +:+ "b c")
     = Return (VString ("a" +:+ LF +:+ "b"), "c")
  /\ VString ("a" +:+ LF +:+ "b") <> VString (whitespace_token ("a" +:+ LF +:+ "b c")).
Proof. repeat split. discriminate. Qed.

(** ** The argument chain of a command *)

Section CommandValidation.
Context `{CaseMapping} `{Transport}.

(** An Argument throws nothing but a ParseError. *)
Lemma validate_throws_Parse (arg : Argument) (args : string) (e : Error) :
  validate arg args = Throw e -> exists pe, e = Parse pe.
Proof.
  destruct arg as [a|a|a]; simpl.
  - unfold StringArgument.validate.
    destruct (JS.shift (JS.split " " args)) as [str argArray].
    unfold StringArgument._validate, throw_ParseError.
    repeat match goal with
           | |- context [match ?c with Some _ => _ | None => _ end] => destruct c
           end; intros [=]; subst; eauto.
  - unfold RestArgument.validate, StringArgument._validate, throw_ParseError.
    repeat match goal with
           | |- context [match ?c with Some _ => _ | None => _ end] => destruct c
           end; intros [=]; subst; eauto.
  - unfold NumberArgument.validate, throw_ParseError.
    destruct (JS.shift (JS.split " " args)) as [str argArray].
    repeat match goal with
           | |- context [match ?c with Some _ => _ | None => _ end] => destruct c
           end; intros [=]; subst; eauto.
Qed.

Lemma validateArgs_arg_throws_Parse (acc : validated) (arg : Argument) (e : Error) :
  Command.validateArgs_arg acc arg = Throw e -> exists pe, e = Parse pe.
Proof.
  unfold Command.validateArgs_arg.
  destruct (validate arg (remaining acc)) as [[val rest]|e'] eqn:E; [discriminate|].
  destruct (validate_throws_Parse _ _ _ E) as [pe ->].
  destruct (isOptional arg); intros [=]; subst; eauto.
Qed.

Lemma validateArgs_forEach_throws_Parse (args : list Argument) :
  forall (acc : validated) (e : Error),
  Command.validateArgs_forEach args acc = Throw e -> exists pe, e = Parse pe.
Proof.
  induction args as [|arg args IH]; simpl; intros acc e; [discriminate|].
  destruct (Command.validateArgs_arg acc arg) as [acc'|e'] eqn:E.
  - apply IH.
  - intros [=]; subst. eapply validateArgs_arg_throws_Parse, E.
Qed.

(** What is left of the input is always a trimmed string. *)
Lemma validateArgs_arg_trimmed (acc acc' : validated) (arg : Argument) :
  (exists s, remaining acc = JS.trim s) ->
  Command.validateArgs_arg acc arg = Return acc' ->
  exists s, remaining acc' = JS.trim s.
Proof.
  intros Hacc. unfold Command.validateArgs_arg.
  destruct (validate arg (remaining acc)) as [[val rest]|e].
  - intros [=]; subst. simpl. eauto.
  - destruct e as [pe| | |]; try discriminate.
    destruct (isOptional arg); [|discriminate].
    intros [=]; subst. exact Hacc.
Qed.

Lemma validateArgs_forEach_trimmed (args : list Argument) :
  forall acc acc' : validated,
  (exists s, remaining acc = JS.trim s) ->
  Command.validateArgs_forEach args acc = Return acc' ->
  exists s, remaining acc' = JS.trim s.
Proof.
  induction args as [|arg args IH]; simpl; intros acc acc' Hacc.
  - intros [=]; subst. exact Hacc.
  - destruct (Command.validateArgs_arg acc arg) as [acc1|e] eqn:E; [|discriminate].
    apply IH. eapply validateArgs_arg_trimmed; eauto.
Qed.

Lemma length_pos_not_empty (s : string) :
  (0 <? String.length s)%nat = true <-> s <> "".
Proof.
  destruct s; simpl; split; try discriminate; try congruence; reflexivity.
Qed.

Lemma object_set_other (name : string) (val : value) (o : gmap string value) :
  name <> "__proto__" -> object_set name val o = <[name := val]> o.
Proof.
  intros Hn. unfold object_set.
  destruct (String.eqb_spec name "__proto__"); [contradiction | reflexivity].
Qed.

(** C4, as amended: in the chain of a command, when the [validate] of an
    optional Argument throws a ParseError, the turn does not throw: the
    error is appended to the list of errors, the input that is left stays
    as it was, the chain goes on with the next Argument, and the
    Argument's default is stored under its name, unless that name is
    "__proto__", for which the assignment stores nothing.  So for a command
    with one optional String Argument whose default is "x" and whose name
    is not "__proto__", on an input that fails its constraints the chain
    returns the mapping from the name to "x", with the error recorded and
    the trimmed input left over. *)
Theorem validateArgs_optional_fallback :
  (forall (arg : Argument) (args' : list Argument) (acc : validated) (e : ParseError),
      validate arg (remaining acc) = Throw (Parse e) ->
      isOptional arg = true ->
      let acc' := {| result := object_set (getName arg) (getDefault arg) (result acc);
                     remaining := remaining acc;
                     errors := app (errors acc) [e] |} in
      Command.validateArgs_arg acc arg = Return acc'
      /\ Command.validateArgs_forEach (arg :: args') acc
         = Command.validateArgs_forEach args' acc'
      /\ (getName arg <> "__proto__" ->
          result acc' = <[getName arg := getDefault arg]> (result acc))
      /\ (getName arg = "__proto__" -> result acc' = result acc))
  /\ (forall (cmd : Command) (a : StringArgument) (args : string) (e : ParseError),
      _arguments cmd = [String_ a] ->
      isOptional (String_ a) = true ->
      getDefault (String_ a) = VString "x" ->
      getName (String_ a) <> "__proto__" ->
      StringArgument.validate a (JS.trim args) = Throw (Parse e) ->
      Command.validateArgs cmd args
      = Return {| result := {[ getName (String_ a) := VString "x" ]};
                  remaining := JS.trim args;
                  errors := [e] |}).
Proof.
  assert (Hstep : forall (arg : Argument) (acc : validated) (e : ParseError),
             validate arg (remaining acc) = Throw (Parse e) ->
             isOptional arg = true ->
             Command.validateArgs_arg acc arg
             = Return {| result := object_set (getName arg) (getDefault arg) (result acc);
                         remaining := remaining acc;
                         errors := app (errors acc) [e] |}).
  { intros arg acc e Hv Ho. unfold Command.validateArgs_arg. now rewrite Hv, Ho. }
  split.
  - intros arg args' acc e Hv Ho acc'. split; [now apply Hstep|].
    split; [simpl; now rewrite (Hstep arg acc e Hv Ho)|].
    split.
    + intros Hn. simpl. now apply object_set_other.
    + intros Hn. simpl. now rewrite Hn.
  - intros cmd a args e Hargs Ho Hd Hn Hv.
    unfold Command.validateArgs, Command.getArguments. rewrite Hargs. simpl.
    rewrite (Hstep (String_ a)
               {| result := ∅; remaining := JS.trim args; errors := [] |} e Hv Ho).
    simpl. rewrite Hd, (object_set_other _ _ _ Hn), insert_empty. reflexivity.
Qed.

(** C5: [Command.validate] throws a TooManyArgumentsError exactly when the
    chain went through all the Arguments and left a non-empty input, which
    is a trimmed string; the error carries the first recorded ParseError
    of an optional Argument, if there is one; when nothing is left the
    mapping is returned.  A command without Arguments throws it on "foo",
    with no ParseError to carry, and returns the empty mapping on "". *)
Theorem validate_TooManyArgumentsError (cmd : Command) (args : string) :
  (forall pe : option ParseError,
      Command.validate cmd args = Throw (TooManyArgumentsError pe)
      <-> exists v : validated,
          Command.validateArgs cmd args = Return v
          /\ remaining v <> ""
          /\ pe = head (errors v))
  /\ (forall v : validated,
      Command.validateArgs cmd args = Return v ->
      (exists s, remaining v = JS.trim s)
      /\ (remaining v = "" -> Command.validate cmd args = Return (result v)))
  /\ (_arguments cmd = [] ->
      Command.validate cmd "foo" = Throw (TooManyArgumentsError None)
      /\ Command.validate cmd "" = Return ∅).
Proof.
  split; [|split].
  - intros pe. unfold Command.validate. split.
    + destruct (Command.validateArgs cmd args) as [v|e] eqn:E.
      * destruct (0 <? String.length (remaining v))%nat eqn:L; [|discriminate].
        intros [=]; subst. exists v.
        split; [reflexivity|]. split; [now apply length_pos_not_empty | reflexivity].
      * intros [=]; subst.
        destruct (validateArgs_forEach_throws_Parse _ _ _ E) as [pe' [=]].
    + intros (v & -> & Hne & ->).
      apply length_pos_not_empty in Hne. now rewrite Hne.
  - intros v E. split.
    + unfold Command.validateArgs in E.
      eapply validateArgs_forEach_trimmed; [|exact E]. simpl. eauto.
    + intros Hr. unfold Command.validate. rewrite E, Hr. reflexivity.
  - intros Hargs. unfold Command.validate, Command.validateArgs, Command.getArguments.
    rewrite Hargs. split; reflexivity.
Qed.

(** After the fallback of C4 the command itself still fails when the input
    was not empty: what the optional Argument refused is left over. *)
Lemma validate_optional_fallback_leftover
    (cmd : Command) (a : StringArgument) (args : string) (e : ParseError) :
  _arguments cmd = [String_ a] ->
  isOptional (String_ a) = true ->
  StringArgument.validate a (JS.trim args) = Throw (Parse e) ->
  Command.validate cmd args
  = if (0 <? String.length (JS.trim args))%nat
    then Throw (TooManyArgumentsError (Some e))
    else Return (object_set (getName (String_ a)) (getDefault (String_ a)) ∅).
Proof.
  intros Hargs Ho Hv.
  unfold Command.validate, Command.validateArgs, Command.getArguments.
  rewrite Hargs. simpl. unfold Command.validateArgs_arg. simpl.
  rewrite Hv, Ho. reflexivity.
Qed.

(** C9, as amended: a String Argument without a minimum length, a
    whitelist or a regular expression, and whose maximum length, if it has
    one, is not negative, accepts the empty input and gives the empty
    string, with nothing left; so wherever it stands in the chain, when the
    input has run out no ParseError reports the missing argument: the
    chain assigns "" under its name and goes on, and a command whose only
    Argument it is, under a name other than "__proto__", returns the
    mapping from its name to "" on an input that is empty once trimmed. *)
Theorem StringArgument_accepts_empty_input (a : StringArgument) :
  _minlen a = None -> _whitelist a = None -> _regex a = None ->
  (forall n, _maxlen a = Some n -> (0 <= n)%Z) ->
  StringArgument.validate a "" = Return (VString "", "")
  /\ (forall (args' : list Argument) (acc : validated),
      remaining acc = "" ->
      Command.validateArgs_forEach (String_ a :: args') acc
      = Command.validateArgs_forEach args'
          {| result := object_set (getName (String_ a)) (VString "") (result acc);
             remaining := "";
             errors := errors acc |})
  /\ (forall (cmd : Command) (args : string),
      _arguments cmd = [String_ a] -> JS.trim args = "" ->
      getName (String_ a) <> "__proto__" ->
      Command.validate cmd args = Return {[ getName (String_ a) := VString "" ]}).
Proof.
  intros Emin Ewl Ere Hmax.
  assert (Hv : StringArgument.validate a "" = Return (VString "", "")).
  { unfold StringArgument.validate. simpl.
    unfold StringArgument._validate, StringArgument.check_minlen,
      StringArgument.check_maxlen, StringArgument.check_whitelist,
      StringArgument.check_regex.
    rewrite Emin, Ewl, Ere.
    assert (Hf : StringArgument.fold_case a "" = "").
    { unfold StringArgument.fold_case.
      destruct (_uppercase a), (_lowercase a);
        rewrite ?toUpperCase_empty, ?toLowerCase_empty; reflexivity. }
    rewrite Hf. simpl. destruct (_maxlen a) as [n|] eqn:En; [|reflexivity].
    specialize (Hmax n eq_refl). change (Z.of_nat 0) with 0%Z.
    destruct (Z.ltb_spec n 0); [lia | reflexivity]. }
  split; [exact Hv|]. split.
  - intros args' acc Hr. simpl. unfold Command.validateArgs_arg. simpl.
    rewrite Hr, Hv. reflexivity.
  - intros cmd args Hargs Ht Hn.
    unfold Command.validate, Command.validateArgs, Command.getArguments.
    rewrite Hargs, Ht. simpl. unfold Command.validateArgs_arg. simpl.
    rewrite Hv. simpl. rewrite (object_set_other _ _ _ Hn), insert_empty. reflexivity.
Qed.

End CommandValidation.

Lemma validateArgs_optional_fallback_witness :
  let a := StringArgument.optional (VString "x") true
             (StringArgument.min 3 (StringArgument.setName "name" StringArgument.new)) in
  let cmd := Command.addArgument (String_ a)
               (@CommandCollector.new_Command held_transport "greet") in
  let e := {| parse_message := StringTooShort 3 2; argument := String_ a |} in
  (@StringArgument.validate ascii_case a (JS.trim "ab") = Throw (Parse e)
   /\ getName (String_ a) <> "__proto__")
  /\ @Command.validateArgs ascii_case held_transport cmd "ab"
     = Return {| result := {[ "name" := VString "x" ]};
                 remaining := "ab";
                 errors := [e] |}.
Proof.
  intros a cmd e. split; [split; [reflexivity | discriminate]|].
  exact (proj2 (@validateArgs_optional_fallback ascii_case held_transport)
           cmd a "ab" e eq_refl eq_refl eq_refl ltac:(discriminate) eq_refl).
Defined.

(** C4, as stated, fails for an optional Argument named "__proto__", a name
    [setName] accepts: the fallback runs, the error is recorded, but the
    mapping has no entry under the name. *)
Lemma validateArgs_optional_fallback_proto :
  let a := StringArgument.optional (VString "x") true
             (StringArgument.min 3 (StringArgument.setName "__proto__" StringArgument.new)) in
  let cmd := Command.addArgument (String_ a)
               (@CommandCollector.new_Command held_transport "greet") in
  let e := {| parse_message := StringTooShort 3 2; argument := String_ a |} in
  isOptional (String_ a) = true
  /\ getDefault (String_ a) = VString "x"
  /\ @StringArgument.validate ascii_case a (JS.trim "ab") = Throw (Parse e)
  /\ @Command.validateArgs ascii_case held_transport cmd "ab"
     = Return {| result := ∅; remaining := "ab"; errors := [e] |}
  /\ (∅ : gmap string value) !! getName (String_ a) = None.
Proof. repeat split. Qed.

Lemma validate_TooManyArgumentsError_witness :
  let cmd := @CommandCollector.new_Command held_transport "ping" in
  _arguments cmd = []
  /\ @Command.validate ascii_case held_transport cmd "foo"
     = Throw (TooManyArgumentsError None)
  /\ @Command.validate ascii_case held_transport cmd "" = Return ∅.
Proof.
  intros cmd. split; [reflexivity|].
  exact (proj2 (proj2 (@validate_TooManyArgumentsError ascii_case held_transport cmd ""))
           eq_refl).
Defined.

Lemma StringArgument_accepts_empty_input_witness :
  let a := StringArgument.forceUpperCase
             (StringArgument.max 0 (StringArgument.setName "text" StringArgument.new)) in
  let cmd := Command.addArgument (String_ a)
               (@CommandCollector.new_Command held_transport "echo") in
  (_minlen a = None /\ _whitelist a = None /\ _regex a = None
   /\ (forall n, _maxlen a = Some n -> (0 <= n)%Z))
  /\ @StringArgument.validate ascii_case a "" = Return (VString "", "")
  /\ @Command.validate ascii_case held_transport cmd "  "
     = Return {[ "text" := VString "" ]}.
Proof.
  intros a cmd.
  assert (Hmax : forall n, _maxlen a = Some n -> (0 <= n)%Z).
  { intros n [= <-]. lia. }
  split; [repeat split; exact Hmax|].
  destruct (@StringArgument_accepts_empty_input ascii_case held_transport a
              eq_refl eq_refl eq_refl Hmax) as (Hv & _ & Hc).
  split; [exact Hv|]. exact (Hc cmd "  " eq_refl eq_refl ltac:(discriminate)).
Defined.

(** C9, as stated, fails twice.  With max(-1), a maximum of the source's
    type, the empty input is longer than the maximum and is refused with a
    ParseError.  And for an Argument named "__proto__" the empty input is
    accepted but the mapping of the command has no entry for it. *)
Lemma StringArgument_refuses_empty_input :
  let a := StringArgument.max (-1) (StringArgument.setName "text" StringArgument.new) in
  let b := StringArgument.setName "__proto__" StringArgument.new in
  let cmd := Command.addArgument (String_ b)
               (@CommandCollector.new_Command held_transport "echo") in
  (_minlen a = None /\ _whitelist a = None /\ _regex a = None)
  /\ @StringArgument.validate ascii_case a ""
     = Throw (Parse {| parse_message := StringTooLong (-1) 0; argument := String_ a |})
  /\ @Command.validate ascii_case held_transport cmd "" = Return ∅
  /\ (∅ : gmap string value) !! "__proto__" = None.
Proof. repeat split. Qed.

(** ** Dispatch *)

Section DispatchProperties.
Context `{CaseMapping} `{Transport}.

Lemma Command_validate_throws (cmd : Command) (args : string) (e : Error) :
  Command.validate cmd args = Throw e ->
  (exists pe, e = Parse pe) \/ (exists pe, e = TooManyArgumentsError pe).
Proof.
  unfold Command.validate.
  destruct (Command.validateArgs cmd args) as [v|e'] eqn:E.
  - destruct (0 <? String.length (remaining v))%nat; [|discriminate].
    intros [=]; subst. right. eauto.
  - intros [=]; subst. left. eapply validateArgs_forEach_throws_Parse, E.
Qed.

Lemma first_rejection_In (settled : list settlement) (t : nat) (e : Error) :
  Command.first_rejection settled = Some (t, e) -> In (Rejects t e) settled.
Proof.
  revert t e. induction settled as [|[|t0 e0] settled IH]; simpl; intros t e.
  - discriminate.
  - intros Hf. right. now apply IH.
  - destruct (Command.first_rejection settled) as [[t' e']|].
    + destruct (t' <? t0)%nat; intros [= <- <-]; [right; now apply IH | now left].
    + intros [= <- <-]. now left.
Qed.

(** What [Promise.all] rejects with is what one of the promises rejected
    with. *)
Lemma Promise_all_throws (settled : list settlement) (e : Error) :
  Command.Promise_all settled = Throw e -> exists t, In (Rejects t e) settled.
Proof.
  unfold Command.Promise_all.
  destruct (Command.first_rejection settled) as [[t e']|] eqn:E; [|discriminate].
  intros [= <-]. exists t. now apply first_rejection_In.
Qed.

Lemma isAllowed_forallb (cmd : Command) (ev : ICommandMessage) :
  Command.isAllowed cmd ev = forallb (fun cb => cb ev) (_permissionHandler cmd).
Proof.
  unfold Command.isAllowed.
  induction (_permissionHandler cmd) as [|cb cbs IH]; [reflexivity|].
  simpl. now rewrite IH.
Qed.

Lemma dispatch_no_missing (cmd : Command) (args : string) (ev : ICommandMessage) :
  missing ev (_permissions cmd) = [] ->
  Command.dispatch cmd args ev
  = match Command.validate cmd args with
    | Throw e => (Throw e, [])
    | Return arguments => Command._dispatchCommand cmd arguments ev
    end.
Proof. intros Hm. unfold Command.dispatch. now rewrite Hm. Qed.

Lemma dispatch_missing (cmd : Command) (args : string) (ev : ICommandMessage) :
  missing ev (_permissions cmd) <> [] ->
  Command.dispatch cmd args ev
  = if JS.includes (missing ev (_permissions cmd)) "SEND_MESSAGES"
    then (Return tt, [AuthorSend])
    else (Return tt, [ChannelSend (missing ev (_permissions cmd))]).
Proof.
  intros Hm. unfold Command.dispatch.
  destruct (JS.includes _ _); [reflexivity|].
  destruct (missing ev (_permissions cmd)); [congruence | reflexivity].
Qed.

(** C1, as amended: a dispatch first looks at the capabilities of the bot:
    when one is missing it only sends a notice (to the author when
    SEND_MESSAGES is missing, to the channel otherwise) and resolves, and
    neither the arguments nor the permissions are looked at.  Otherwise the
    argument text is validated, and its error is the error of the dispatch
    whatever the permission predicates say.  Only then are the predicates
    evaluated, all of them holding being required, with a PermissionError
    otherwise; and only then do the handlers run, all of them.  So a
    handler runs only if no capability is missing, the arguments are valid
    and every predicate holds. *)
Theorem dispatch_phases (cmd : Command) (args : string) (ev : ICommandMessage) :
  let lacking := missing ev (_permissions cmd) in
  Command.isAllowed cmd ev = forallb (fun cb => cb ev) (_permissionHandler cmd)
  /\ (JS.includes lacking "SEND_MESSAGES" = true ->
      Command.dispatch cmd args ev = (Return tt, [AuthorSend]))
  /\ (JS.includes lacking "SEND_MESSAGES" = false -> lacking <> [] ->
      Command.dispatch cmd args ev = (Return tt, [ChannelSend lacking]))
  /\ (lacking = [] ->
      forall e, Command.validate cmd args = Throw e ->
      Command.dispatch cmd args ev = (Throw e, []))
  /\ (lacking = [] ->
      forall arguments, Command.validate cmd args = Return arguments ->
      Command.isAllowed cmd ev = false ->
      Command.dispatch cmd args ev = (Throw PermissionError, []))
  /\ (lacking = [] ->
      forall arguments, Command.validate cmd args = Return arguments ->
      Command.isAllowed cmd ev = true ->
      Command.dispatch cmd args ev
      = (Command.Promise_all (map (fun handle => handle ev arguments) (_execHandler cmd)),
         map (fun i => Executed i arguments) (seq 0 (length (_execHandler cmd)))))
  /\ (forall i arguments,
      In (Executed i arguments) (snd (Command.dispatch cmd args ev)) ->
      lacking = []
      /\ Command.validate cmd args = Return arguments
      /\ Command.isAllowed cmd ev = true
      /\ (i < length (_execHandler cmd))%nat).
Proof.
  intros lacking.
  split; [apply isAllowed_forallb|].
  split.
  { intros Hs. unfold Command.dispatch. fold lacking. now rewrite Hs. }
  split.
  { intros Hs Hne. rewrite (dispatch_missing cmd args ev Hne). fold lacking.
    now rewrite Hs. }
  split.
  { intros Hm e Hv. rewrite (dispatch_no_missing cmd args ev Hm). now rewrite Hv. }
  split.
  { intros Hm arguments Hv Hp. rewrite (dispatch_no_missing cmd args ev Hm), Hv.
    unfold Command._dispatchCommand, Command.hasPermission. now rewrite Hp. }
  split.
  { intros Hm arguments Hv Hp. rewrite (dispatch_no_missing cmd args ev Hm), Hv.
    unfold Command._dispatchCommand, Command.hasPermission. now rewrite Hp. }
  intros i arguments Hin.
  destruct lacking as [|p ps] eqn:Hm.
  - rewrite (dispatch_no_missing cmd args ev Hm) in Hin.
    destruct (Command.validate cmd args) as [arguments'|e]; [|destruct Hin].
    unfold Command._dispatchCommand, Command.hasPermission in Hin.
    destruct (Command.isAllowed cmd ev); [|destruct Hin].
    simpl in Hin. apply in_map_iff in Hin as (j & [= <- <-] & Hj).
    apply in_seq in Hj. repeat split; lia.
  - assert (Hne : missing ev (_permissions cmd) <> []) by (fold lacking; congruence).
    rewrite (dispatch_missing cmd args ev Hne) in Hin.
    destruct (JS.includes _ _); simpl in Hin;
      destruct Hin as [Hin|[]]; discriminate.
Qed.

(** C10, as amended: a command without permission predicates is allowed
    for everyone, so the permission check of its dispatch never fails; the
    dispatch rejects with a PermissionError only when the arguments were
    valid and one of its own handlers rejected with a PermissionError, and
    never when no handler does. *)
Theorem no_predicate_no_PermissionError (cmd : Command) :
  _permissionHandler cmd = [] ->
  forall ev : ICommandMessage,
  Command.isAllowed cmd ev = true
  /\ Command.hasPermission cmd ev = true
  /\ (forall args : string,
      fst (Command.dispatch cmd args ev) = Throw PermissionError ->
      exists (handle : ICommandExecute) (arguments : gmap string value) (t : nat),
        In handle (_execHandler cmd)
        /\ Command.validate cmd args = Return arguments
        /\ handle ev arguments = Rejects t PermissionError)
  /\ (forall args : string,
      (forall (handle : ICommandExecute) (arguments : gmap string value) (t : nat),
         In handle (_execHandler cmd) ->
         handle ev arguments <> Rejects t PermissionError) ->
      fst (Command.dispatch cmd args ev) <> Throw PermissionError).
Proof.
  intros Hp ev.
  assert (Ha : Command.isAllowed cmd ev = true).
  { unfold Command.isAllowed. now rewrite Hp. }
  assert (Hd : forall args : string,
      fst (Command.dispatch cmd args ev) = Throw PermissionError ->
      exists (handle : ICommandExecute) (arguments : gmap string value) (t : nat),
        In handle (_execHandler cmd)
        /\ Command.validate cmd args = Return arguments
        /\ handle ev arguments = Rejects t PermissionError).
  { intros args. unfold Command.dispatch.
    destruct (JS.includes _ _); [discriminate|].
    destruct (0 <? length _)%nat; [discriminate|].
    destruct (Command.validate cmd args) as [arguments|e] eqn:Hv.
    - unfold Command._dispatchCommand, Command.hasPermission. rewrite Ha. simpl.
      intros Ht. destruct (Promise_all_throws _ _ Ht) as [t Hin].
      apply in_map_iff in Hin as (handle & Hh & Hin).
      exists handle, arguments, t. repeat split; assumption.
    - simpl. intros [= ->].
      destruct (Command_validate_throws _ _ _ Hv) as [[pe [=]]|[pe [=]]]. }
  split; [exact Ha|]. split; [exact Ha|]. split; [exact Hd|].
  intros args Hno Ht.
  destruct (Hd args Ht) as (handle & arguments & t & Hin & _ & Hr).
  exact (Hno handle arguments t Hin Hr).
Qed.

End DispatchProperties.

Lemma dispatch_phases_witness :
  let cmd := Command.exec (fun _ _ => Resolves)
               (@CommandCollector.new_Command held_transport "ping") in
  (@missing held_transport [] (_permissions cmd) = []
   /\ @Command.validate ascii_case held_transport cmd "" = Return ∅
   /\ Command.isAllowed cmd [] = true)
  /\ @Command.dispatch ascii_case held_transport cmd "" []
     = (Return tt, [Executed 0 ∅]).
Proof.
  intros cmd. split; [repeat split|].
  destruct (@dispatch_phases ascii_case held_transport cmd "" [])
    as (_ & _ & _ & _ & _ & Hrun & _).
  exact (Hrun eq_refl ∅ eq_refl eq_refl).
Defined.

(** C1, as stated, fails on a command whose only predicate refuses everyone,
    dispatched with the text "foo" that its empty argument list does not
    accept: the dispatch fails with the TooManyArgumentsError of the
    validation, not with a PermissionError.  And once the command requires
    a capability the bot lacks, the same dispatch resolves with a notice,
    before either of the two is looked at. *)
Lemma dispatch_validates_before_permission :
  let cmd := Command.checkPermission (fun _ => false)
               (@CommandCollector.new_Command held_transport "ping") in
  let cmd' := Command.requireBotPermission "EMBED_LINKS" cmd in
  Command.isAllowed cmd [] = false
  /\ @Command.validate ascii_case held_transport cmd "foo"
     = Throw (TooManyArgumentsError None)
  /\ @Command.dispatch ascii_case held_transport cmd "foo" []
     = (Throw (TooManyArgumentsError None), [])
  /\ fst (@Command.dispatch ascii_case held_transport cmd "foo" [])
     <> Throw PermissionError
  /\ @Command.dispatch ascii_case held_transport cmd' "foo" []
     = (Return tt, [ChannelSend ["EMBED_LINKS"]]).
Proof. repeat split. discriminate. Qed.

Lemma no_predicate_no_PermissionError_witness :
  let cmd := Command.exec (fun _ _ => Rejects 0 (OtherError "boom"))
               (@CommandCollector.new_Command held_transport "ping") in
  _permissionHandler cmd = []
  /\ Command.isAllowed cmd [] = true
  /\ @Command.dispatch ascii_case held_transport cmd "" []
     = (Throw (OtherError "boom"), [Executed 0 ∅])
  /\ fst (@Command.dispatch ascii_case held_transport cmd "" [])
     <> Throw PermissionError.
Proof.
  intros cmd. split; [reflexivity|].
  destruct (@no_predicate_no_PermissionError ascii_case held_transport cmd eq_refl [])
    as (Ha & _ & _ & Hno).
  split; [exact Ha|]. split; [reflexivity|].
  apply Hno. intros handle arguments t [<-|[]]. discriminate.
Defined.

(** C10, as stated, fails on a command without predicates whose handler
    awaits the dispatch of a command that refuses everyone: the handler
    runs, rejects with the PermissionError of the inner dispatch, and the
    outer dispatch rejects with it. *)
Lemma handler_rejects_with_PermissionError :
  let forbidden := Command.checkPermission (fun _ => false)
                     (@CommandCollector.new_Command held_transport "admin") in
  let handle : @ICommandExecute held_transport :=
    fun ev _ =>
      match fst (@Command.dispatch ascii_case held_transport forbidden "" ev) with
      | Throw e => Rejects 0 e
      | Return _ => Resolves
      end in
  let cmd := Command.exec handle (@CommandCollector.new_Command held_transport "ping") in
  _permissionHandler cmd = []
  /\ Command.isAllowed cmd [] = true
  /\ @Command.dispatch ascii_case held_transport cmd "" []
     = (Throw PermissionError, [Executed 0 ∅]).
Proof. repeat split. Qed.

(** ** The registry and its aliases *)

Section AliasProperties.
Context `{CaseMapping} `{Transport}.

Lemma filter_truthy_array (alias : list string) (_commands : list Command) :
  List.filter
    (fun a => JS.truthy_array (CommandCollector.getAvailableCommands a _commands))
    alias
  = alias.
Proof.
  induction alias as [|a alias IH]; [reflexivity|].
  simpl. now rewrite IH.
Qed.

(** Whatever is registered, [alias] pushes every name that passed the name
    check. *)
Lemma alias_pushes_all (alias : list string) (this : Command) (_commands : list Command) :
  Command.forEach_isValidCommandName (map toLowerCase alias) = Return tt ->
  exists this',
    Command.alias alias this _commands = Return this'
    /\ Command.getAlias this' = app (Command.getAlias this) (map toLowerCase alias)
    /\ _name this' = _name this.
Proof.
  intros Hv. unfold Command.alias. rewrite Hv, filter_truthy_array.
  eexists. split; [reflexivity|]. split; reflexivity.
Qed.

End AliasProperties.

(** C2, on the code: with the commands "a" and "b" registered after the
    module is loaded, "a" is taken (the collector finds a command for it
    and would refuse to register it again), and [alias("a")] on "b" throws
    nothing and leaves "a" in the alias list of "b"; with "b" put back in
    its place, the name "a" resolves to both commands. *)
Theorem alias_keeps_colliding_name :
  let help := @help_command held_transport in
  let a := @CommandCollector.new_Command held_transport "a" in
  let b := @CommandCollector.new_Command held_transport "b" in
  let b' := {| _execHandler := []; _help := ""; _manual := []; _name := "b";
               _alias := ["a"]; _permissionHandler := []; _arguments := [];
               _permissions := [] |} in
  @CommandCollector.createCommand ascii_case held_transport "a" loaded
  = Return [help; a]
  /\ @CommandCollector.createCommand ascii_case held_transport "b" [help; a]
     = Return [help; a; b]
  /\ @CommandCollector.getAvailableCommands ascii_case held_transport "a" [help; a; b]
     = [a]
  /\ @CommandCollector.isCommandCanSave ascii_case held_transport "a" [help; a; b]
     = Return false
  /\ @Command.alias ascii_case held_transport ["a"] b [help; a; b] = Return b'
  /\ Command.getAlias b' = ["a"]
  /\ @CommandCollector.getAvailableCommands ascii_case held_transport "a"
       (<[2%nat := b']> [help; a; b])
     = [a; b'].
Proof. repeat split. Qed.

(** ** The prefix cache *)

Section PrefixProperties.
Context {W : Type}.

Lemma reads_app (cs cs' : list call) : reads (app cs cs') = (reads cs + reads cs')%nat.
Proof. unfold reads. now rewrite List.filter_app, length_app. Qed.

Lemma getPrefix_hit (m : machine W) (guildId prefix : string) :
  guildPrefixCache m !! guildId = Some prefix ->
  getPrefix guildId m = (Return prefix, m).
Proof. intros Hc. unfold getPrefix. now rewrite Hc. Qed.

(** C8: [setPrefix(g, p)] resolves with [p] stored in the cache under [g],
    whatever the machine was; the writer, when there is one, is then called
    once with [g] and [p]; and the [getPrefix(g)] that follows returns [p]
    and leaves the machine as it is: no callback is called. *)
Theorem setPrefix_getPrefix_roundtrip (m : machine W) (g p : string) :
  let m' := snd (setPrefix g p m) in
  fst (setPrefix g p m) = Return tt
  /\ guildPrefixCache m' = <[g := p]> (guildPrefixCache m)
  /\ calls m'
     = app (calls m)
         (match setPrefixCallback m with
          | Some _ => [CallSetPrefix g p]
          | None => []
          end)
  /\ store m'
     = match setPrefixCallback m with
       | Some setCb => setCb g p (store m)
       | None => store m
       end
  /\ getPrefix g m' = (Return p, m').
Proof.
  intros m'. unfold m', setPrefix. simpl.
  destruct (setPrefixCallback m) as [setCb|]; simpl.
  - repeat split. apply getPrefix_hit. simpl. apply lookup_insert_eq.
  - repeat split; [now rewrite app_nil_r|]. apply getPrefix_hit. simpl.
    apply lookup_insert_eq.
Qed.

(** C3, as amended: on a guild that is not in the cache, with a reader
    configured [getPrefix] calls the reader exactly once.  When the read is
    empty, the default prefix is written back through the writer and
    returned, and the cache is left as it was: the default is not cached.
    When the read gives a prefix, that prefix is returned and cached, and
    the next [getPrefix] for the guild returns it without any call.
    Without a reader the default is returned and nothing changes. *)
Theorem getPrefix_cache_miss (m : machine W) (g : string) :
  guildPrefixCache m !! g = None ->
  (getPrefixCallback m = None -> getPrefix g m = (Return (defaultPrefix m), m))
  /\ (forall getCb, getPrefixCallback m = Some getCb ->
      let m' := snd (getPrefix g m) in
      reads (calls m') = S (reads (calls m))
      /\ (forall setCb,
          JS.truthy_string (fst (getCb g (store m))) = false ->
          setPrefixCallback m = Some setCb ->
          fst (getPrefix g m) = Return (defaultPrefix m)
          /\ calls m' = app (calls m) [CallGetPrefix g; CallSetPrefix g (defaultPrefix m)]
          /\ store m' = setCb g (defaultPrefix m) (snd (getCb g (store m)))
          /\ guildPrefixCache m' = guildPrefixCache m)
      /\ (forall prefix,
          fst (getCb g (store m)) = Some prefix -> prefix <> "" ->
          fst (getPrefix g m) = Return prefix
          /\ calls m' = app (calls m) [CallGetPrefix g]
          /\ guildPrefixCache m' = <[g := prefix]> (guildPrefixCache m)
          /\ getPrefix g m' = (Return prefix, m'))).
Proof.
  intros Hmiss. split.
  - intros Hg. unfold getPrefix. now rewrite Hmiss, Hg.
  - intros getCb Hg m'. unfold m', getPrefix. rewrite Hmiss, Hg.
    unfold call_getPrefixCallback.
    destruct (getCb g (store m)) as [r w]. simpl.
    split; [|split].
    + destruct (JS.truthy_string r); simpl.
      * rewrite reads_app. simpl. unfold reads at 2. simpl. lia.
      * destruct (setPrefixCallback m); simpl.
        -- rewrite <- app_assoc, reads_app. simpl. unfold reads at 2. simpl. lia.
        -- rewrite reads_app. simpl. unfold reads at 2. simpl. lia.
    + intros setCb Hr Hs. rewrite Hr, Hs. simpl.
      rewrite <- app_assoc. repeat split.
    + intros prefix -> Hne. destruct prefix as [|c s]; [congruence|]. simpl.
      repeat split. now rewrite lookup_insert_eq.
Qed.

End PrefixProperties.

Lemma getPrefix_cache_miss_witness :
  let m := setCallback (Some table_get) (Some table_set)
             (initial ({[ "g1" := "?" ]} : gmap string string)) in
  guildPrefixCache m !! "g1" = None
  /\ fst (getPrefix "g1" m) = Return "?"
  /\ getPrefix "g1" (snd (getPrefix "g1" m)) = (Return "?", snd (getPrefix "g1" m)).
Proof.
  intros m.
  assert (Hmiss : guildPrefixCache m !! "g1" = None) by reflexivity.
  split; [exact Hmiss|].
  destruct (proj2 (getPrefix_cache_miss m "g1" Hmiss) table_get eq_refl)
    as (_ & _ & Hread).
  destruct (Hread "?" eq_refl ltac:(discriminate)) as (Hr & _ & _ & Hnext).
  split; [exact Hr | exact Hnext].
Defined.

(** C3, as stated, fails with a store that has no prefix for the guild: the
    first [getPrefix] reads nothing, writes the default back and returns
    it, but the cache has no entry for the guild afterwards, and the second
    [getPrefix] calls the reader again. *)
Lemma getPrefix_default_not_cached :
  let m := setCallback (Some table_get) (Some table_set)
             (initial (∅ : gmap string string)) in
  let m1 := snd (getPrefix "g1" m) in
  let m2 := snd (getPrefix "g1" m1) in
  fst (getPrefix "g1" m) = Return "!"
  /\ calls m1 = [CallGetPrefix "g1"; CallSetPrefix "g1" "!"]
  /\ guildPrefixCache m1 !! "g1" = None
  /\ calls m2 = [CallGetPrefix "g1"; CallSetPrefix "g1" "!"; CallGetPrefix "g1"]
  /\ reads (calls m2) = 2%nat.
Proof. vm_compute. repeat split. Qed.

(** * Part III: further properties of the module *)

(** ** What an accepted argument satisfies *)

Lemma split_first_token (s : string) :
  exists token rest,
    JS.split " " s = token :: rest
    /\ space_free token = true
    /\ ((rest = [] /\ s = token) \/ s = token +:+ " " +:+ JS.join " " rest).
Proof.
  induction s as [|c s (token & rest & Hs & Hf & Hd)].
  - exists "", []. repeat split. left. split; reflexivity.
  - simpl. destruct (Ascii.eqb c " ") eqn:E.
    + apply Ascii.eqb_eq in E. subst c.
      exists "", (JS.split " " s). repeat split. right.
      simpl. now rewrite (join_split " " s).
    + rewrite Hs. exists (String c token), rest.
      split; [reflexivity|]. split; [simpl; now rewrite E, Hf|].
      destruct Hd as [[-> ->]|Hd]; [left; split; reflexivity | right].
      exact (f_equal (String c) Hd).
Qed.

Lemma includes_In (a : list string) (x : string) :
  JS.includes a x = true <-> In x a.
Proof.
  unfold JS.includes. rewrite existsb_exists. split.
  - intros (y & Hy & E). apply String.eqb_eq in E. now subst.
  - intros Hx. exists x. split; [exact Hx | apply String.eqb_refl].
Qed.

Section ValidatorSoundness.
Context `{CaseMapping}.

Lemma _validate_Return (this : Argument) (a : StringArgument)
    (arg rest : string) (v : value) (r : string) :
  StringArgument._validate this a arg rest = Return (v, r) ->
  let cand := StringArgument.fold_case a arg in
  r = rest
  /\ v = VString cand
  /\ (forall n, _minlen a = Some n -> (n <= Z.of_nat (String.length cand))%Z)
  /\ (forall n, _maxlen a = Some n -> (Z.of_nat (String.length cand) <= n)%Z)
  /\ (forall w, _whitelist a = Some w -> In cand w)
  /\ (forall re, _regex a = Some re -> re cand = true).
Proof.
  unfold StringArgument._validate, StringArgument.check_minlen,
    StringArgument.check_maxlen, StringArgument.check_whitelist,
    StringArgument.check_regex, throw_ParseError.
  set (cand := StringArgument.fold_case a arg). cbv zeta.
  destruct (_minlen a) as [lo|];
    [destruct (Z.ltb_spec (Z.of_nat (String.length cand)) lo); [discriminate|] |];
    (destruct (_maxlen a) as [hi|];
     [destruct (Z.ltb_spec hi (Z.of_nat (String.length cand))); [discriminate|] |]);
    (destruct (_whitelist a) as [w|];
     [destruct (JS.includes w cand) eqn:Hw; [|discriminate] |]);
    (destruct (_regex a) as [re|];
     [destruct (re cand) eqn:Hre; [|discriminate] |]);
    simpl; intros [= <- <-];
    repeat split; try discriminate;
    try (intros ? [= <-]; first [assumption | now apply includes_In]).
Qed.

Lemma _validate_Throw (this : Argument) (a : StringArgument)
    (arg rest : string) (e : Error) :
  StringArgument._validate this a arg rest = Throw e ->
  exists msg, e = Parse {| parse_message := msg; argument := this |}.
Proof.
  unfold StringArgument._validate, throw_ParseError.
  repeat match goal with
         | |- context [match ?c with Some _ => _ | None => _ end] => destruct c
         end; intros [=]; subst; eauto.
Qed.

(** X1: what a String Argument returns is the case-folded text before the
    first space of the input together with the text after that space, and
    the returned text satisfies every configured constraint: its length is
    within the bounds, it is a word of the whitelist, the regular
    expression accepts it. *)
Theorem StringArgument_validate_sound
    (a : StringArgument) (args : string) (v : value) (rest : string) :
  StringArgument.validate a args = Return (v, rest) ->
  exists token,
    space_free token = true
    /\ ((args = token /\ rest = "") \/ args = token +:+ " " +:+ rest)
    /\ v = VString (StringArgument.fold_case a token)
    /\ (forall n, _minlen a = Some n ->
        (n <= Z.of_nat (String.length (StringArgument.fold_case a token)))%Z)
    /\ (forall n, _maxlen a = Some n ->
        (Z.of_nat (String.length (StringArgument.fold_case a token)) <= n)%Z)
    /\ (forall w, _whitelist a = Some w -> In (StringArgument.fold_case a token) w)
    /\ (forall re, _regex a = Some re -> re (StringArgument.fold_case a token) = true).
Proof.
  unfold StringArgument.validate.
  destruct (split_first_token args) as (token & arr & Hs & Hf & Hd).
  rewrite Hs. cbn [JS.shift].
  assert (Ht : JS.or_empty (Some token) = token) by now destruct token.
  rewrite Ht. intros Hv.
  destruct (_validate_Return _ _ _ _ _ _ Hv) as (-> & -> & Hmin & Hmax & Hw & Hre).
  exists token. split; [exact Hf|]. split.
  - destruct Hd as [[-> ->]|Hd]; [left; split; reflexivity | right; exact Hd].
  - repeat split; assumption.
Qed.

(** X3: a Rest Argument takes the whole input as its candidate, spaces
    included: when it returns, nothing is left and the value is the
    case-folded input, which satisfies the configured constraints; when it
    throws, the ParseError names the Rest Argument; without constraints it
    returns any input as it is. *)
Theorem RestArgument_validate_whole_input (a : StringArgument) (args : string) :
  (forall v rest, RestArgument.validate a args = Return (v, rest) ->
     rest = ""
     /\ v = VString (StringArgument.fold_case a args)
     /\ (forall n, _minlen a = Some n ->
         (n <= Z.of_nat (String.length (StringArgument.fold_case a args)))%Z)
     /\ (forall n, _maxlen a = Some n ->
         (Z.of_nat (String.length (StringArgument.fold_case a args)) <= n)%Z)
     /\ (forall w, _whitelist a = Some w -> In (StringArgument.fold_case a args) w)
     /\ (forall re, _regex a = Some re -> re (StringArgument.fold_case a args) = true))
  /\ (forall e, RestArgument.validate a args = Throw e ->
      exists msg, e = Parse {| parse_message := msg; argument := Rest a |})
  /\ RestArgument.validate StringArgument.new args = Return (VString args, "").
Proof.
  split; [|split].
  - intros v rest Hv. exact (_validate_Return _ _ _ _ _ _ Hv).
  - intros e He. exact (_validate_Throw _ _ _ _ _ He).
  - reflexivity.
Qed.

Lemma validate_throws_own_ParseError_lemma (arg : Argument) (args : string) (e : Error) :
  validate arg args = Throw e ->
  exists msg, e = Parse {| parse_message := msg; argument := arg |}.
Proof.
  destruct arg as [a|a|a]; simpl.
  - unfold StringArgument.validate.
    destruct (JS.shift (JS.split " " args)) as [str argArray].
    apply _validate_Throw.
  - apply _validate_Throw.
  - unfold NumberArgument.validate, throw_ParseError.
    destruct (JS.shift (JS.split " " args)) as [str argArray].
    repeat match goal with
           | |- context [match ?c with Some _ => _ | None => _ end] => destruct c
           end; intros [=]; subst; eauto.
Qed.

(** X4: the only thing the [validate] of an Argument throws is a ParseError,
    and that ParseError carries the very Argument that refused the
    input. *)
Theorem validate_throws_own_ParseError (arg : Argument) (args : string) (e : Error) :
  validate arg args = Throw e ->
  exists msg, e = Parse {| parse_message := msg; argument := arg |}.
Proof. exact (validate_throws_own_ParseError_lemma arg args e). Qed.

End ValidatorSoundness.

Lemma SFleb_zero_false_Gt (num : JS.number) :
  JS.isNaN num = false -> JS.le num JS.zero = false ->
  SFcompare num JS.zero = Some Gt.
Proof.
  unfold JS.le, SFleb, JS.zero.
  destruct num as [s|s| |s m e]; simpl; try discriminate;
    destruct s; simpl; try discriminate; reflexivity.
Qed.

Lemma SFleb_zero_false_Lt (num : JS.number) :
  JS.isNaN num = false -> JS.ge num JS.zero = false ->
  SFcompare num JS.zero = Some Lt.
Proof.
  unfold JS.ge, SFleb, JS.zero.
  destruct num as [s|s| |s m e]; simpl; try discriminate;
    destruct s; simpl; try discriminate; reflexivity.
Qed.

Lemma rem_one_zero_finite (num : JS.number) :
  JS.strict_neq (JS.rem_one num) JS.zero = false -> is_finite num = true.
Proof.
  unfold JS.strict_neq. destruct num as [s|s| |s m e]; simpl; try discriminate; reflexivity.
Qed.

(** X2: what a Number Argument returns is the number of the text before the
    first space of the input, which is of the grammar of signed decimals,
    together with the text after that space; the number is not NaN, is not
    below the minimum nor above the maximum, is greater than zero under
    positive() and less than zero under negative(); under integer() it is
    finite with a zero remainder, so that integer() keeps Infinity out. *)
Theorem NumberArgument_validate_sound
    (a : NumberArgument) (args : string) (v : value) (rest : string) :
  NumberArgument.validate a args = Return (v, rest) ->
  exists token,
    space_free token = true
    /\ ((args = token /\ rest = "") \/ args = token +:+ " " +:+ rest)
    /\ JS.is_decimal_literal token = true
    /\ v = VNumber (JS.parseFloat token)
    /\ JS.isNaN (JS.parseFloat token) = false
    /\ (forall lo, _min a = Some lo -> JS.gt lo (JS.parseFloat token) = false)
    /\ (forall hi, _max a = Some hi -> JS.lt hi (JS.parseFloat token) = false)
    /\ (_int a = true ->
        is_finite (JS.parseFloat token) = true
        /\ SFeqb (JS.rem_one (JS.parseFloat token)) JS.zero = true)
    /\ (_forcePositive a = true -> SFcompare (JS.parseFloat token) JS.zero = Some Gt)
    /\ (_forceNegative a = true -> SFcompare (JS.parseFloat token) JS.zero = Some Lt).
Proof.
  unfold NumberArgument.validate.
  destruct (split_first_token args) as (token & arr & Hs & Hf & Hd).
  rewrite Hs. cbn [JS.shift].
  assert (Ht : JS.or_empty (Some token) = token) by now destruct token.
  rewrite Ht, (check_format_literal token).
  set (num := JS.parseFloat token).
  destruct (JS.is_decimal_literal token) eqn:Hlit; [|discriminate].
  pose proof (parseFloat_literal_not_NaN token Hlit) as Hnan. fold num in Hnan.
  unfold NumberArgument.check_min, NumberArgument.check_max,
    NumberArgument.check_int, NumberArgument.check_positive,
    NumberArgument.check_negative, throw_ParseError.
  destruct (_min a) as [lo|];
    [destruct (JS.gt lo num) eqn:Hlo; [discriminate|] |];
    (destruct (_max a) as [hi|];
     [destruct (JS.lt hi num) eqn:Hhi; [discriminate|] |]);
    (destruct (_int a);
     [destruct (JS.strict_neq (JS.rem_one num) JS.zero) eqn:Hint; [discriminate|] |]);
    (destruct (_forcePositive a);
     [destruct (JS.le num JS.zero) eqn:Hpos; [discriminate|] |]);
    (destruct (_forceNegative a);
     [destruct (JS.ge num JS.zero) eqn:Hneg; [discriminate|] |]);
    simpl; intros [= <- <-]; exists token;
    (split; [exact Hf|]);
    (split; [destruct Hd as [[-> ->]|Hd]; [left; split; reflexivity | right; exact Hd]|]);
    (split; [exact Hlit|]); (split; [reflexivity|]); (split; [exact Hnan|]);
    repeat split; try discriminate;
    try (intros ? [= <-]; assumption);
    try (intros; now apply rem_one_zero_finite);
    try (intros; unfold JS.strict_neq in Hint; now apply negb_false_iff in Hint);
    try (intros; now apply SFleb_zero_false_Gt);
    try (intros; now apply SFleb_zero_false_Lt).
Qed.

Lemma StringArgument_validate_sound_witness :
  let a := StringArgument.min 2 (StringArgument.max 4 StringArgument.new) in
  @StringArgument.validate ascii_case a "abc d e" = Return (VString "abc", "d e")
  /\ exists token,
       space_free token = true
       /\ VString "abc" = VString (@StringArgument.fold_case ascii_case a token)
       /\ (2 <= Z.of_nat (String.length (@StringArgument.fold_case ascii_case a token)) <= 4)%Z.
Proof.
  intros a. split; [reflexivity|].
  destruct (@StringArgument_validate_sound ascii_case a "abc d e" (VString "abc") "d e"
              eq_refl) as (token & Hf & _ & Hv & Hmin & Hmax & _).
  exists token. split; [exact Hf|]. split; [exact Hv|].
  split; [exact (Hmin 2%Z eq_refl) | exact (Hmax 4%Z eq_refl)].
Defined.

Lemma validate_throws_own_ParseError_witness :
  let arg := Number (NumberArgument.integer NumberArgument.new) in
  @validate ascii_case arg "2.5"
  = Throw (Parse {| parse_message := NotAnInteger (JS.parseFloat "2.5"); argument := arg |})
  /\ exists msg,
       Parse {| parse_message := NotAnInteger (JS.parseFloat "2.5"); argument := arg |}
       = Parse {| parse_message := msg; argument := arg |}.
Proof.
  intros arg.
  assert (Hv : @validate ascii_case arg "2.5"
               = Throw (Parse {| parse_message := NotAnInteger (JS.parseFloat "2.5");
                                 argument := arg |})) by (vm_compute; reflexivity).
  split; [exact Hv|].
  exact (@validate_throws_own_ParseError ascii_case arg "2.5" _ Hv).
Defined.

Lemma NumberArgument_validate_sound_witness :
  let a := NumberArgument.positive (NumberArgument.integer NumberArgument.new) in
  NumberArgument.validate a "42 apples" = Return (VNumber (JS.of_Z 42), "apples")
  /\ exists token,
       JS.is_decimal_literal token = true
       /\ VNumber (JS.of_Z 42) = VNumber (JS.parseFloat token)
       /\ is_finite (JS.parseFloat token) = true
       /\ SFcompare (JS.parseFloat token) JS.zero = Some Gt.
Proof.
  intros a.
  assert (Hv : NumberArgument.validate a "42 apples"
               = Return (VNumber (JS.of_Z 42), "apples")) by (vm_compute; reflexivity).
  split; [exact Hv|].
  destruct (NumberArgument_validate_sound a "42 apples" _ _ Hv)
    as (token & _ & _ & Hlit & Hnum & _ & _ & _ & Hint & Hpos & _).
  exists token. split; [exact Hlit|]. split; [exact Hnum|].
  split; [exact (proj1 (Hint eq_refl)) | exact (Hpos eq_refl)].
Defined.

(** ** More on the argument chain *)

Lemma trimEnd_idem (s : string) : JS.trimEnd (JS.trimEnd s) = JS.trimEnd s.
Proof.
  induction s as [|c s IH]; [reflexivity|].
  simpl. destruct (JS.trimEnd s) as [|d t] eqn:E.
  - destruct (JS.is_white_space c) eqn:Ec; [reflexivity|]. simpl. now rewrite Ec.
  - change (JS.trimEnd (String c (String d t))) with
      (match JS.trimEnd (String d t) with
       | EmptyString => if JS.is_white_space c then EmptyString else String c EmptyString
       | u => String c u
       end).
    now rewrite IH.
Qed.

Lemma trimStart_head (s : string) :
  match JS.trimStart s with
  | EmptyString => True
  | String c _ => JS.is_white_space c = false
  end.
Proof.
  induction s as [|c s IH]; [exact I|].
  simpl. destruct (JS.is_white_space c) eqn:E; [exact IH | exact E].
Qed.

Lemma trimStart_trimEnd (s : string) :
  match s with
  | EmptyString => True
  | String c _ => JS.is_white_space c = false
  end ->
  JS.trimStart (JS.trimEnd s) = JS.trimEnd s.
Proof.
  destruct s as [|c s]; [reflexivity|]. intros Hc. cbn [JS.trimEnd].
  destruct (JS.trimEnd s); rewrite ?Hc; cbn [JS.trimStart]; now rewrite Hc.
Qed.

Lemma trim_idem (s : string) : JS.trim (JS.trim s) = JS.trim s.
Proof.
  unfold JS.trim.
  rewrite (trimStart_trimEnd (JS.trimStart s) (trimStart_head s)).
  apply trimEnd_idem.
Qed.

Section ChainProperties.
Context `{CaseMapping} `{Transport}.

Lemma validateArgs_forEach_app (pre post : list Argument) (acc : validated) :
  Command.validateArgs_forEach (app pre post) acc
  = match Command.validateArgs_forEach pre acc with
    | Throw e => Throw e
    | Return acc' => Command.validateArgs_forEach post acc'
    end.
Proof.
  revert acc. induction pre as [|arg pre IH]; intros acc; [reflexivity|].
  simpl. destruct (Command.validateArgs_arg acc arg); [apply IH | reflexivity].
Qed.

Lemma dom_object_set (name : string) (val : value) (o : gmap string value) :
  dom (object_set name val o)
  = dom o ∪ list_to_set (List.filter (fun n => negb (String.eqb n "__proto__")) [name]).
Proof.
  unfold object_set. cbn [List.filter].
  destruct (String.eqb name "__proto__"); cbn [negb list_to_set].
  - now rewrite (right_id_L ∅ (∪)).
  - rewrite dom_insert_L, (right_id_L ∅ (∪)). apply (comm_L (∪)).
Qed.

Lemma validateArgs_forEach_dom (args : list Argument) :
  forall acc v : validated,
  Command.validateArgs_forEach args acc = Return v ->
  dom (result v)
  = dom (result acc)
    ∪ list_to_set (List.filter (fun n => negb (String.eqb n "__proto__"))
                     (map getName args)).
Proof.
  induction args as [|arg args IH]; simpl; intros acc v.
  - intros [= <-]. now rewrite (right_id_L ∅ (∪)).
  - destruct (Command.validateArgs_arg acc arg) as [acc'|e] eqn:E; [|discriminate].
    intros Hv. rewrite (IH _ _ Hv).
    assert (Hd : dom (result acc')
                 = dom (result acc)
                   ∪ list_to_set (List.filter (fun n => negb (String.eqb n "__proto__"))
                                    [getName arg])).
    { unfold Command.validateArgs_arg in E.
      destruct (validate arg (remaining acc)) as [[val rest]|[pe| | |]];
        try discriminate.
      - injection E as <-. apply dom_object_set.
      - destruct (isOptional arg); [|discriminate].
        injection E as <-. apply dom_object_set. }
    rewrite Hd. cbn [List.filter].
    destruct (negb (String.eqb (getName arg) "__proto__")); cbn [list_to_set].
    + now rewrite (right_id_L ∅ (∪)), (assoc_L (∪)).
    + now rewrite (right_id_L ∅ (∪)).
Qed.

(** X5: the mapping [Command.validate] returns has an entry for the name of
    every Argument of the command other than "__proto__", the optional ones
    that fell back on their default included, and for nothing else; under
    "__proto__", a name [setName] accepts, nothing is stored. *)
Theorem validate_keys (cmd : Command) (args : string) (r : gmap string value) :
  Command.validate cmd args = Return r ->
  dom r = list_to_set (List.filter (fun n => negb (String.eqb n "__proto__"))
                         (map getName (_arguments cmd)))
  /\ r !! "__proto__" = None.
Proof.
  unfold Command.validate.
  destruct (Command.validateArgs cmd args) as [v|e] eqn:E; [|discriminate].
  destruct (0 <? String.length (remaining v))%nat; [discriminate|].
  intros [= <-]. unfold Command.validateArgs, Command.getArguments in E.
  assert (Hd : dom (result v)
               = list_to_set (List.filter (fun n => negb (String.eqb n "__proto__"))
                                (map getName (_arguments cmd)))).
  { rewrite (validateArgs_forEach_dom _ _ _ E). simpl.
    now rewrite dom_empty_L, (left_id_L ∅ (∪)). }
  split; [exact Hd|].
  apply not_elem_of_dom. rewrite Hd. rewrite elem_of_list_to_set.
  intros Hin. apply list_elem_of_In, filter_In in Hin as [_ Hn].
  discriminate.
Qed.

Lemma validateArgs_forEach_errors (args : list Argument) :
  forall acc v : validated,
  Command.validateArgs_forEach args acc = Return v ->
  exists es,
    errors v = app (errors acc) es
    /\ Forall (fun pe => In (argument pe) args /\ isOptional (argument pe) = true) es
    /\ (length es <= length (List.filter isOptional args))%nat.
Proof.
  induction args as [|arg args IH]; simpl; intros acc v.
  - intros [= <-]. exists []. rewrite app_nil_r. repeat constructor.
  - destruct (Command.validateArgs_arg acc arg) as [acc'|e] eqn:E; [|discriminate].
    intros Hv. destruct (IH _ _ Hv) as (es & He & Hf & Hl).
    assert (Hes : Forall (fun pe => (arg = argument pe \/ In (argument pe) args)
                                    /\ isOptional (argument pe) = true) es).
    { eapply List.Forall_impl; [|exact Hf]. intros pe [Hin Ho]. split; [now right | exact Ho]. }
    unfold Command.validateArgs_arg in E.
    destruct (validate arg (remaining acc)) as [[val rest]|e'] eqn:Ev.
    + injection E as <-. simpl in He. exists es.
      split; [exact He|]. split; [exact Hes|].
      destruct (isOptional arg); simpl; lia.
    + destruct (validate_throws_own_ParseError_lemma _ _ _ Ev) as [msg ->].
      destruct (isOptional arg) eqn:Ho; [|discriminate].
      injection E as <-. simpl in He.
      exists ({| parse_message := msg; argument := arg |} :: es).
      split; [now rewrite He, <- app_assoc|].
      split; [constructor; [split; [now left | exact Ho] | exact Hes] | simpl; lia].
Qed.

(** X6: the errors the chain records are ParseErrors of optional Arguments
    of the command, at most one for each of them; so the ParseError a
    TooManyArgumentsError carries, when it carries one, names an optional
    Argument of the command, and a command without optional Arguments
    throws it with none. *)
Theorem recorded_errors_are_optional (cmd : Command) (args : string) :
  (forall v, Command.validateArgs cmd args = Return v ->
     Forall (fun pe => In (argument pe) (_arguments cmd)
                       /\ isOptional (argument pe) = true) (errors v)
     /\ (length (errors v) <= length (List.filter isOptional (_arguments cmd)))%nat)
  /\ (forall pe, Command.validate cmd args = Throw (TooManyArgumentsError (Some pe)) ->
      In (argument pe) (_arguments cmd) /\ isOptional (argument pe) = true).
Proof.
  assert (Hrec : forall v, Command.validateArgs cmd args = Return v ->
     Forall (fun pe => In (argument pe) (_arguments cmd)
                       /\ isOptional (argument pe) = true) (errors v)
     /\ (length (errors v) <= length (List.filter isOptional (_arguments cmd)))%nat).
  { intros v E. unfold Command.validateArgs, Command.getArguments in E.
    destruct (validateArgs_forEach_errors _ _ _ E) as (es & He & Hf & Hl).
    simpl in He. subst es. split; assumption. }
  split; [exact Hrec|].
  intros pe. unfold Command.validate.
  destruct (Command.validateArgs cmd args) as [v|e] eqn:E.
  - destruct (0 <? String.length (remaining v))%nat; [|discriminate].
    intros [= Hh]. destruct (Hrec v eq_refl) as [Hf _].
    destruct (errors v) as [|pe' es]; [discriminate|].
    injection Hh as ->. now inversion Hf.
  - intros [= ->].
    destruct (validateArgs_forEach_throws_Parse _ _ _ E) as [pe' [=]].
Qed.

(** X7: a command whose last Argument is a required Rest Argument never
    fails with a TooManyArgumentsError: whatever the earlier Arguments
    leave goes to the Rest Argument. *)
Theorem required_Rest_last_no_TooManyArguments
    (cmd : Command) (pre : list Argument) (a : StringArgument) (args : string) :
  _arguments cmd = app pre [Rest a] ->
  isOptional (Rest a) = false ->
  forall pe, Command.validate cmd args <> Throw (TooManyArgumentsError pe).
Proof.
  intros Hargs Ho pe. unfold Command.validate.
  destruct (Command.validateArgs cmd args) as [v|e] eqn:E.
  - unfold Command.validateArgs, Command.getArguments in E.
    rewrite Hargs, validateArgs_forEach_app in E.
    destruct (Command.validateArgs_forEach pre _) as [acc|e]; [|discriminate].
    simpl in E. unfold Command.validateArgs_arg in E.
    destruct (validate (Rest a) (remaining acc)) as [[val rest]|e] eqn:Ev.
    + simpl in Ev. unfold RestArgument.validate in Ev.
      destruct (_validate_Return _ _ _ _ _ _ Ev) as (-> & _).
      injection E as <-. simpl. discriminate.
    + destruct (validate_throws_own_ParseError_lemma _ _ _ Ev) as [msg ->].
      rewrite Ho in E. discriminate.
  - intros [= ->].
    destruct (validateArgs_forEach_throws_Parse _ _ _ E) as [pe' [=]].
Qed.

(** X8: whitespace around the argument text does not count: the chain, the
    validation and the dispatch of a command give the same on the text and
    on the trimmed text. *)
Theorem validate_ignores_outer_whitespace
    (cmd : Command) (args : string) (ev : ICommandMessage) :
  Command.validateArgs cmd (JS.trim args) = Command.validateArgs cmd args
  /\ Command.validate cmd (JS.trim args) = Command.validate cmd args
  /\ Command.dispatch cmd (JS.trim args) ev = Command.dispatch cmd args ev.
Proof.
  assert (Hv : Command.validateArgs cmd (JS.trim args) = Command.validateArgs cmd args).
  { unfold Command.validateArgs. now rewrite trim_idem. }
  assert (Hv' : Command.validate cmd (JS.trim args) = Command.validate cmd args).
  { unfold Command.validate. now rewrite Hv. }
  split; [exact Hv|]. split; [exact Hv'|].
  unfold Command.dispatch. now rewrite Hv'.
Qed.

End ChainProperties.

Lemma validate_keys_witness :
  let cmd := Command.addArgument
               (String_ (StringArgument.setName "__proto__" StringArgument.new))
               (Command.addArgument
                  (String_ (StringArgument.setName "text" StringArgument.new))
                  (@CommandCollector.new_Command held_transport "echo")) in
  @Command.validate ascii_case held_transport cmd "hello world"
  = Return (<["text" := VString "hello"]> ∅)
  /\ dom (<["text" := VString "hello"]> (∅ : gmap string value))
     = list_to_set (List.filter (fun n => negb (String.eqb n "__proto__"))
                      (map getName (_arguments cmd)))
  /\ (<["text" := VString "hello"]> (∅ : gmap string value)) !! "__proto__" = None.
Proof.
  intros cmd.
  assert (Hv : @Command.validate ascii_case held_transport cmd "hello world"
               = Return (<["text" := VString "hello"]> ∅)) by reflexivity.
  split; [exact Hv|].
  exact (@validate_keys ascii_case held_transport cmd "hello world" _ Hv).
Defined.

Lemma required_Rest_last_no_TooManyArguments_witness :
  let a := StringArgument.setName "message" StringArgument.new in
  let pre := [String_ (StringArgument.setName "target" StringArgument.new)] in
  let cmd := Command.addArgument (Rest a)
               (Command.addArgument (String_ (StringArgument.setName "target" StringArgument.new))
                  (@CommandCollector.new_Command held_transport "tell")) in
  (_arguments cmd = app pre [Rest a] /\ isOptional (Rest a) = false)
  /\ @Command.validate ascii_case held_transport cmd "bob see you  at noon"
     <> Throw (TooManyArgumentsError None).
Proof.
  intros a pre cmd. split; [split; reflexivity|].
  exact (@required_Rest_last_no_TooManyArguments ascii_case held_transport
           cmd pre a "bob see you  at noon" eq_refl eq_refl None).
Defined.

(** ** The registry *)

Lemma ascii_lower_idem (c : ascii) : ascii_lower (ascii_lower c) = ascii_lower c.
Proof. destruct c as [[] [] [] [] [] [] [] []]; reflexivity. Qed.

Lemma ascii_toLowerCase_idem (s : string) :
  @toLowerCase ascii_case (@toLowerCase ascii_case s) = @toLowerCase ascii_case s.
Proof.
  simpl. induction s as [|c s IH]; [reflexivity|].
  simpl. now rewrite ascii_lower_idem, IH.
Qed.

Section RegistryProperties.
Context `{CaseMapping} `{Transport}.

(** Lowering a lowered name changes nothing, as the case mapping of
    JavaScript has it. *)
Hypothesis toLowerCase_idem : forall s, toLowerCase (toLowerCase s) = toLowerCase s.

Lemma isValidCommandName_valid (name : string) :
  valid_name name = true ->
  CommandCollector.isValidCommandName name = Return true.
Proof.
  unfold valid_name, CommandCollector.isValidCommandName.
  intros Hv. apply andb_prop in Hv as [Hl Hw].
  apply Nat.leb_le in Hl. apply negb_true_iff in Hw.
  destruct (Nat.ltb_spec (String.length name) 1); [lia|]. now rewrite Hw.
Qed.

Lemma isValidCommandName_invalid (name : string) :
  valid_name name = false ->
  exists msg, CommandCollector.isValidCommandName name = Throw (OtherError msg).
Proof.
  unfold valid_name, CommandCollector.isValidCommandName. intros Hv.
  destruct (Nat.ltb_spec (String.length name) 1); [eauto|].
  destruct (JS.has_white_space name); [eauto|].
  destruct (Nat.leb_spec 1 (String.length name)); [discriminate | lia].
Qed.

Lemma getAvailableCommands_nil (name : string) (_commands : list Command) :
  CommandCollector.getAvailableCommands name _commands = []
  <-> forall cmd, In cmd _commands ->
      ~ In (toLowerCase name) (CommandCollector.getCommandNames cmd).
Proof.
  unfold CommandCollector.getAvailableCommands.
  induction _commands as [|c cs IH]; cbn [List.filter].
  - split; [intros _ cmd [] | reflexivity].
  - destruct (JS.includes (CommandCollector.getCommandNames c) (toLowerCase name)) eqn:E.
    + split; [discriminate|]. intros Hn. exfalso.
      apply (Hn c); [now left | now apply includes_In].
    + rewrite IH. split.
      * intros Hn cmd [<-|Hin]; [|now apply Hn].
        intros Hc. apply includes_In in Hc. congruence.
      * intros Hn cmd Hin. apply Hn. now right.
Qed.

Lemma getAvailableCommands_app (name : string) (cs cs' : list Command) :
  CommandCollector.getAvailableCommands name (app cs cs')
  = app (CommandCollector.getAvailableCommands name cs)
        (CommandCollector.getAvailableCommands name cs').
Proof. unfold CommandCollector.getAvailableCommands. apply List.filter_app. Qed.

Lemma createCommand_outcome_lemma (name : string) (_commands : list Command) :
  (valid_name (toLowerCase name) = false ->
   exists msg, CommandCollector.createCommand name _commands = Throw (OtherError msg))
  /\ (valid_name (toLowerCase name) = true ->
      (exists cmd, In cmd _commands
                   /\ In (toLowerCase name) (CommandCollector.getCommandNames cmd)) ->
      CommandCollector.createCommand name _commands
      = Throw (OtherError "This command already exist!"))
  /\ (valid_name (toLowerCase name) = true ->
      (forall cmd, In cmd _commands ->
                   ~ In (toLowerCase name) (CommandCollector.getCommandNames cmd)) ->
      CommandCollector.createCommand name _commands
      = Return (app _commands [CommandCollector.new_Command (toLowerCase name)])).
Proof.
  unfold CommandCollector.createCommand, CommandCollector.isCommandCanSave,
    CommandCollector.registerCommand.
  split; [|split].
  - intros Hv. destruct (isValidCommandName_invalid _ Hv) as [msg ->]. eauto.
  - intros Hv (cmd & Hin & Hn). rewrite (isValidCommandName_valid _ Hv).
    destruct (CommandCollector.getAvailableCommands (toLowerCase name) _commands)
      as [|c cs] eqn:E; [|reflexivity].
    exfalso. apply (proj1 (getAvailableCommands_nil _ _) E cmd Hin).
    now rewrite toLowerCase_idem.
  - intros Hv Hn. rewrite (isValidCommandName_valid _ Hv).
    assert (E : CommandCollector.getAvailableCommands (toLowerCase name) _commands = []).
    { apply getAvailableCommands_nil. intros cmd Hin. rewrite toLowerCase_idem.
      now apply Hn. }
    now rewrite E.
Qed.

(** X9: what [createCommand] does with a name.  A name that is empty or has
    whitespace in it is refused with an error; a valid name that some
    registered command has as its name or as one of its aliases, in any
    casing, is refused with "This command already exist!"; any other name
    is registered, lowered, as a new command without aliases, arguments,
    predicates or handlers, at the end of the collector. *)
Theorem createCommand_outcome (name : string) (_commands : list Command) :
  (valid_name (toLowerCase name) = false ->
   exists msg, CommandCollector.createCommand name _commands = Throw (OtherError msg))
  /\ (valid_name (toLowerCase name) = true ->
      (exists cmd, In cmd _commands
                   /\ In (toLowerCase name) (CommandCollector.getCommandNames cmd)) ->
      CommandCollector.createCommand name _commands
      = Throw (OtherError "This command already exist!"))
  /\ (valid_name (toLowerCase name) = true ->
      (forall cmd, In cmd _commands ->
                   ~ In (toLowerCase name) (CommandCollector.getCommandNames cmd)) ->
      CommandCollector.createCommand name _commands
      = Return (app _commands [CommandCollector.new_Command (toLowerCase name)])).
Proof. exact (createCommand_outcome_lemma name _commands). Qed.

Lemma createCommand_Return (name : string) (cs cs' : list Command) :
  CommandCollector.createCommand name cs = Return cs' ->
  valid_name (toLowerCase name) = true
  /\ (forall cmd, In cmd cs ->
      ~ In (toLowerCase name) (CommandCollector.getCommandNames cmd))
  /\ cs' = app cs [CommandCollector.new_Command (toLowerCase name)].
Proof.
  intros Hc.
  destruct (createCommand_outcome_lemma name cs) as (Hinv & Htaken & Hfree).
  destruct (valid_name (toLowerCase name)) eqn:Hv.
  - assert (Hn : forall cmd, In cmd cs ->
                 ~ In (toLowerCase name) (CommandCollector.getCommandNames cmd)).
    { intros cmd Hin Hname.
      rewrite (Htaken eq_refl (ex_intro _ cmd (conj Hin Hname))) in Hc. discriminate. }
    rewrite (Hfree eq_refl Hn) in Hc. injection Hc as <-. repeat split; assumption.
  - destruct (Hinv eq_refl) as [msg Hm]. rewrite Hm in Hc. discriminate.
Qed.

(** X10: the collector the module starts with has valid, pairwise distinct
    command names, and every successful [createCommand] keeps it so: the
    new name is not empty, has no whitespace, and is the name of no
    command registered before. *)
Theorem createCommand_keeps_names_ok :
  names_ok loaded
  /\ forall (name : string) (cs cs' : list Command),
     CommandCollector.createCommand name cs = Return cs' ->
     names_ok cs -> names_ok cs'.
Proof.
  split.
  - split; [apply NoDup_singleton | repeat constructor].
  - intros name cs cs' Hc [Hnd Hval].
    destruct (createCommand_Return _ _ _ Hc) as (Hv & Hn & ->).
    split.
    + rewrite map_app. simpl. apply NoDup_app. split; [exact Hnd|].
      split; [|apply NoDup_singleton].
      intros x Hx Hx'. apply list_elem_of_In, in_map_iff in Hx as (cmd & <- & Hin).
      apply list_elem_of_In in Hx'. destruct Hx' as [Hx'|[]].
      apply (Hn cmd Hin). left. simpl in Hx'. congruence.
    + apply Forall_app. split; [exact Hval | repeat constructor; exact Hv].
Qed.

(** X11: once [createCommand] has registered a name, that name in any casing
    resolves to the new command and to nothing else, and a second
    [createCommand] for it, in any casing, is refused. *)
Theorem createCommand_then_resolve (name name' : string) (cs cs' : list Command) :
  CommandCollector.createCommand name cs = Return cs' ->
  toLowerCase name' = toLowerCase name ->
  CommandCollector.getAvailableCommands name' cs'
  = [CommandCollector.new_Command (toLowerCase name)]
  /\ CommandCollector.createCommand name' cs'
     = Throw (OtherError "This command already exist!").
Proof.
  intros Hc Hl. destruct (createCommand_Return _ _ _ Hc) as (Hv & Hn & ->).
  split.
  - rewrite getAvailableCommands_app.
    assert (E : CommandCollector.getAvailableCommands name' cs = []).
    { apply getAvailableCommands_nil. now rewrite Hl. }
    rewrite E. unfold CommandCollector.getAvailableCommands. simpl.
    now rewrite Hl, String.eqb_refl.
  - destruct (createCommand_outcome_lemma name' (app cs [CommandCollector.new_Command (toLowerCase name)]))
      as (_ & Htaken & _).
    apply Htaken; [now rewrite Hl|].
    exists (CommandCollector.new_Command (toLowerCase name)).
    split; [apply in_or_app; right; now left | left; simpl; now rewrite Hl].
Qed.

Lemma forEach_isValidCommandName_valid (alias : list string) :
  forallb valid_name alias = true ->
  Command.forEach_isValidCommandName alias = Return tt.
Proof.
  induction alias as [|a alias IH]; [reflexivity|].
  simpl. intros Hv. apply andb_prop in Hv as [Ha Hv].
  now rewrite (isValidCommandName_valid a Ha), (IH Hv).
Qed.

Lemma forEach_isValidCommandName_invalid (alias : list string) :
  forallb valid_name alias = false ->
  exists msg, Command.forEach_isValidCommandName alias = Throw (OtherError msg).
Proof.
  induction alias as [|a alias IH]; [discriminate|].
  simpl. destruct (valid_name a) eqn:Ha; simpl.
  - intros Hv. rewrite (isValidCommandName_valid a Ha). now apply IH.
  - intros _. destruct (isValidCommandName_invalid a Ha) as [msg ->]. eauto.
Qed.

Lemma alias_all_or_nothing_lemma
    (names : list string) (this : Command) (_commands : list Command) :
  (forallb valid_name (map toLowerCase names) = true ->
   Command.alias names this _commands
   = Return {| _execHandler := _execHandler this; _help := _help this;
               _manual := _manual this; _name := _name this;
               _alias := app (_alias this) (map toLowerCase names);
               _permissionHandler := _permissionHandler this;
               _arguments := _arguments this;
               _permissions := _permissions this |})
  /\ (forallb valid_name (map toLowerCase names) = false ->
      exists msg, Command.alias names this _commands = Throw (OtherError msg)).
Proof.
  unfold Command.alias. split.
  - intros Hv. rewrite (forEach_isValidCommandName_valid _ Hv).
    now rewrite filter_truthy_array.
  - intros Hv. destruct (forEach_isValidCommandName_invalid _ Hv) as [msg ->]. eauto.
Qed.

(** X12: [alias] is all or nothing.  When every lowered name is non-empty
    and free of whitespace, all of them are appended to the aliases of the
    command, in the order given, and nothing else of the command changes;
    as soon as one of them is not, the call throws and no alias is
    added. *)
Theorem alias_all_or_nothing
    (names : list string) (this : Command) (_commands : list Command) :
  (forallb valid_name (map toLowerCase names) = true ->
   Command.alias names this _commands
   = Return {| _execHandler := _execHandler this; _help := _help this;
               _manual := _manual this; _name := _name this;
               _alias := app (_alias this) (map toLowerCase names);
               _permissionHandler := _permissionHandler this;
               _arguments := _arguments this;
               _permissions := _permissions this |})
  /\ (forallb valid_name (map toLowerCase names) = false ->
      exists msg, Command.alias names this _commands = Throw (OtherError msg)).
Proof. exact (alias_all_or_nothing_lemma names this _commands). Qed.

(** X13: an alias reserves its name.  Once a command carrying an alias is
    in the collector, the alias in any casing resolves to that command, and
    [createCommand] with the alias as name is refused. *)
Theorem alias_reserves_name
    (names : list string) (this this' : Command) (cs cs' : list Command)
    (a name : string) :
  Command.alias names this cs = Return this' ->
  In this' cs' ->
  In a names ->
  toLowerCase name = toLowerCase a ->
  In this' (CommandCollector.getAvailableCommands name cs')
  /\ CommandCollector.createCommand name cs'
     = Throw (OtherError "This command already exist!").
Proof.
  intros Ha Hin Hnames Hl.
  assert (Hall : forallb valid_name (map toLowerCase names) = true).
  { destruct (forallb valid_name (map toLowerCase names)) eqn:E; [reflexivity|].
    destruct (proj2 (alias_all_or_nothing_lemma names this cs) E) as [msg Hm].
    rewrite Hm in Ha. discriminate. }
  rewrite (proj1 (alias_all_or_nothing_lemma names this cs) Hall) in Ha.
  injection Ha as <-.
  set (this' := {| _execHandler := _execHandler this; _help := _help this;
                   _manual := _manual this; _name := _name this;
                   _alias := app (_alias this) (map toLowerCase names);
                   _permissionHandler := _permissionHandler this;
                   _arguments := _arguments this;
                   _permissions := _permissions this |}) in *.
  assert (Hname : In (toLowerCase name) (CommandCollector.getCommandNames this')).
  { right. simpl. apply in_or_app. right. rewrite Hl. now apply in_map. }
  split.
  - unfold CommandCollector.getAvailableCommands. apply filter_In.
    split; [exact Hin | now apply includes_In].
  - destruct (createCommand_outcome_lemma name cs') as (_ & Htaken & _).
    apply Htaken; [|now exists this'].
    rewrite Hl. rewrite forallb_forall in Hall. apply Hall. now apply in_map.
Qed.

End RegistryProperties.

Lemma createCommand_outcome_witness :
  (forall s, @toLowerCase ascii_case (@toLowerCase ascii_case s) = @toLowerCase ascii_case s)
  /\ @CommandCollector.createCommand ascii_case held_transport "HELP" loaded
     = Throw (OtherError "This command already exist!")
  /\ @CommandCollector.createCommand ascii_case held_transport "Ping" loaded
     = Return [help_command; CommandCollector.new_Command "ping"].
Proof.
  split; [exact ascii_toLowerCase_idem|].
  destruct (@createCommand_outcome ascii_case held_transport ascii_toLowerCase_idem
              "HELP" loaded) as (_ & Htaken & _).
  destruct (@createCommand_outcome ascii_case held_transport ascii_toLowerCase_idem
              "Ping" loaded) as (_ & _ & Hfree).
  split.
  - apply Htaken; [reflexivity|].
    exists help_command. split; [now left | now left].
  - apply Hfree; [reflexivity|].
    intros cmd [<-|[]] [Hn|[]]. discriminate.
Defined.

Lemma createCommand_keeps_names_ok_witness :
  (forall s, @toLowerCase ascii_case (@toLowerCase ascii_case s) = @toLowerCase ascii_case s)
  /\ @CommandCollector.createCommand ascii_case held_transport "Ping" loaded
     = Return [help_command; CommandCollector.new_Command "ping"]
  /\ names_ok [@help_command held_transport; CommandCollector.new_Command "ping"].
Proof.
  split; [exact ascii_toLowerCase_idem|].
  destruct (@createCommand_keeps_names_ok ascii_case held_transport ascii_toLowerCase_idem)
    as [Hbase Hstep].
  split; [reflexivity|].
  exact (Hstep "Ping" loaded _ eq_refl Hbase).
Defined.

Lemma createCommand_then_resolve_witness :
  (forall s, @toLowerCase ascii_case (@toLowerCase ascii_case s) = @toLowerCase ascii_case s)
  /\ @CommandCollector.createCommand ascii_case held_transport "Ping" loaded
     = Return [help_command; CommandCollector.new_Command "ping"]
  /\ @toLowerCase ascii_case "PING" = @toLowerCase ascii_case "Ping"
  /\ @CommandCollector.getAvailableCommands ascii_case held_transport "PING"
       [help_command; CommandCollector.new_Command "ping"]
     = [CommandCollector.new_Command "ping"]
  /\ @CommandCollector.createCommand ascii_case held_transport "PING"
       [help_command; CommandCollector.new_Command "ping"]
     = Throw (OtherError "This command already exist!").
Proof.
  split; [exact ascii_toLowerCase_idem|].
  split; [reflexivity|]. split; [reflexivity|].
  exact (@createCommand_then_resolve ascii_case held_transport ascii_toLowerCase_idem
           "Ping" "PING" loaded _ eq_refl eq_refl).
Defined.

Lemma alias_reserves_name_witness :
  let ping := @CommandCollector.new_Command held_transport "ping" in
  let ping' := {| _execHandler := []; _help := ""; _manual := []; _name := "ping";
                  _alias := ["p"]; _permissionHandler := []; _arguments := [];
                  _permissions := [] |} in
  (forall s, @toLowerCase ascii_case (@toLowerCase ascii_case s) = @toLowerCase ascii_case s)
  /\ @Command.alias ascii_case held_transport ["P"] ping [help_command; ping] = Return ping'
  /\ In ping' [help_command; ping']
  /\ @CommandCollector.createCommand ascii_case held_transport "p" [help_command; ping']
     = Throw (OtherError "This command already exist!").
Proof.
  intros ping ping'.
  split; [exact ascii_toLowerCase_idem|].
  split; [reflexivity|].
  split; [right; now left|].
  exact (proj2 (@alias_reserves_name ascii_case held_transport ascii_toLowerCase_idem
                  ["P"] ping ping' [help_command; ping] [help_command; ping'] "P" "p"
                  eq_refl (or_intror (or_introl eq_refl)) (or_introl eq_refl) eq_refl)).
Defined.

(** ** More on the prefix cache *)

Section MorePrefixProperties.
Context {W : Type}.

(** X14: [getPrefix] rejects in one situation only (the callbacks
    themselves resolving): the guild is not cached, a reader is configured
    and reads nothing, and no writer is configured; the rejection is the
    TypeError of calling the missing writer, the read has been made and the
    cache is as before. *)
Theorem getPrefix_rejects_iff (m : machine W) (g : string) (e : Error) :
  fst (getPrefix g m) = Throw e
  <-> guildPrefixCache m !! g = None
      /\ (exists getCb, getPrefixCallback m = Some getCb
                        /\ JS.truthy_string (fst (getCb g (store m))) = false)
      /\ setPrefixCallback m = None
      /\ e = OtherError "setPrefixCallback is not a function"
      /\ calls (snd (getPrefix g m)) = app (calls m) [CallGetPrefix g]
      /\ guildPrefixCache (snd (getPrefix g m)) = guildPrefixCache m.
Proof.
  unfold getPrefix, call_getPrefixCallback.
  destruct (guildPrefixCache m !! g) as [p|] eqn:Hc; simpl.
  - split; [discriminate | intros ([=] & _)].
  - destruct (getPrefixCallback m) as [getCb|] eqn:Hg; simpl.
    + destruct (getCb g (store m)) as [r w] eqn:Hr. simpl.
      destruct (JS.truthy_string r) eqn:Ht; simpl.
      * split; [discriminate|].
        intros (_ & (getCb' & [= <-] & Hf) & _). rewrite Hr in Hf. simpl in Hf. congruence.
      * destruct (setPrefixCallback m) as [setCb|] eqn:Hs; simpl.
        -- split; [discriminate | intros (_ & _ & [=] & _)].
        -- split.
           ++ intros [= <-]. repeat split.
              exists getCb. split; [reflexivity|]. now rewrite Hr.
           ++ intros (_ & _ & _ & -> & _). reflexivity.
    + split; [discriminate | intros (_ & (getCb & [=] & _) & _)].
Qed.

Lemma truthy_string_not_empty (r : option string) :
  JS.truthy_string r = true -> JS.or_empty r <> "".
Proof. destruct r as [[|c s]|]; simpl; discriminate. Qed.

(** X15: no empty prefix comes out of the cache by itself.  When the
    default prefix is not empty and no cached prefix is, [getPrefix]
    returns a prefix that is not empty and keeps the machine so, and so
    does [setPrefix] with a prefix that is not empty. *)
Theorem prefixes_stay_not_empty (m : machine W) (g : string) :
  prefixes_not_empty m ->
  prefixes_not_empty (snd (getPrefix g m))
  /\ (forall p, fst (getPrefix g m) = Return p -> p <> "")
  /\ (forall p, p <> "" -> prefixes_not_empty (snd (setPrefix g p m))).
Proof.
  intros [Hd Hc]. split; [|split].
  - unfold getPrefix, call_getPrefixCallback.
    destruct (guildPrefixCache m !! g) as [p|] eqn:E; [split; assumption|].
    destruct (getPrefixCallback m) as [getCb|]; [|split; assumption].
    destruct (getCb g (store m)) as [r w]. simpl.
    destruct (JS.truthy_string r) eqn:Ht; simpl.
    + split; [exact Hd|]. simpl. intros g' p.
      destruct (decide (g = g')) as [<-|Hne].
      * rewrite lookup_insert_eq. intros [= <-]. now apply truthy_string_not_empty.
      * rewrite lookup_insert_ne by exact Hne. apply Hc.
    + destruct (setPrefixCallback m); simpl; split; assumption.
  - intros p. unfold getPrefix, call_getPrefixCallback.
    destruct (guildPrefixCache m !! g) as [q|] eqn:E.
    + intros [= <-]. exact (Hc g q E).
    + destruct (getPrefixCallback m) as [getCb|]; [|now intros [= <-]].
      destruct (getCb g (store m)) as [r w]. simpl.
      destruct (JS.truthy_string r) eqn:Ht; simpl.
      * intros [= <-]. now apply truthy_string_not_empty.
      * destruct (setPrefixCallback m); simpl; [now intros [= <-] | discriminate].
  - intros p Hp. unfold setPrefix.
    assert (Hk : forall g' q, <[g := p]> (guildPrefixCache m) !! g' = Some q -> q <> "").
    { intros g' q. destruct (decide (g = g')) as [<-|Hne].
      - rewrite lookup_insert_eq. now intros [= <-].
      - rewrite lookup_insert_ne by exact Hne. apply Hc. }
    simpl. destruct (setPrefixCallback m); simpl; split; assumption.
Qed.

Lemma getPrefix_empty_read
    (m : machine W) (g : string) (getCb : GetCommandPrefix W) (setCb : SetCommandPrefix W) :
  guildPrefixCache m !! g = None ->
  getPrefixCallback m = Some getCb ->
  setPrefixCallback m = Some setCb ->
  JS.truthy_string (fst (getCb g (store m))) = false ->
  getPrefix g m
  = (Return (defaultPrefix m),
     {| defaultPrefix := defaultPrefix m;
        getPrefixCallback := getPrefixCallback m;
        setPrefixCallback := setPrefixCallback m;
        guildPrefixCache := guildPrefixCache m;
        store := setCb g (defaultPrefix m) (snd (getCb g (store m)));
        calls := app (calls m) [CallGetPrefix g; CallSetPrefix g (defaultPrefix m)] |}).
Proof.
  intros Hc Hg Hs Hr. unfold getPrefix, call_getPrefixCallback. rewrite Hc, Hg.
  destruct (getCb g (store m)) as [r w]. simpl in *. rewrite Hr, Hs. simpl.
  unfold call_setPrefixCallback. simpl. now rewrite <- app_assoc.
Qed.

Lemma getPrefix_full_read
    (m : machine W) (g : string) (getCb : GetCommandPrefix W) (prefix : string) :
  guildPrefixCache m !! g = None ->
  getPrefixCallback m = Some getCb ->
  fst (getCb g (store m)) = Some prefix ->
  prefix <> "" ->
  getPrefix g m
  = (Return prefix,
     {| defaultPrefix := defaultPrefix m;
        getPrefixCallback := getPrefixCallback m;
        setPrefixCallback := setPrefixCallback m;
        guildPrefixCache := <[g := prefix]> (guildPrefixCache m);
        store := snd (getCb g (store m));
        calls := app (calls m) [CallGetPrefix g] |}).
Proof.
  intros Hc Hg Hr Hne. unfold getPrefix, call_getPrefixCallback. rewrite Hc, Hg.
  destruct (getCb g (store m)) as [r w]. simpl in *. subst r.
  destruct prefix as [|c s]; [congruence|]. reflexivity.
Qed.

(** X16: with a default prefix that is not empty and a store that gives
    back what was written for the guild, the default prefix reaches the
    cache at the second lookup.  After a first
    [getPrefix] that read nothing and wrote the default back, the second
    one reads the default, returns it and caches it, and the third one is
    answered by the cache without a call: three calls in all, two of them
    reads. *)
Theorem default_cached_at_second_lookup
    (m : machine W) (g : string) (getCb : GetCommandPrefix W) (setCb : SetCommandPrefix W) :
  guildPrefixCache m !! g = None ->
  getPrefixCallback m = Some getCb ->
  setPrefixCallback m = Some setCb ->
  JS.truthy_string (fst (getCb g (store m))) = false ->
  defaultPrefix m <> "" ->
  (forall p w, fst (getCb g (setCb g p w)) = Some p) ->
  let m1 := snd (getPrefix g m) in
  let m2 := snd (getPrefix g m1) in
  fst (getPrefix g m1) = Return (defaultPrefix m)
  /\ guildPrefixCache m2 !! g = Some (defaultPrefix m)
  /\ calls m2
     = app (calls m)
         [CallGetPrefix g; CallSetPrefix g (defaultPrefix m); CallGetPrefix g]
  /\ getPrefix g m2 = (Return (defaultPrefix m), m2).
Proof.
  intros Hc Hg Hs Hr Hd Hstore m1 m2.
  pose proof (getPrefix_empty_read m g getCb setCb Hc Hg Hs Hr) as E1.
  set (m1' := {| defaultPrefix := defaultPrefix m;
                 getPrefixCallback := getPrefixCallback m;
                 setPrefixCallback := setPrefixCallback m;
                 guildPrefixCache := guildPrefixCache m;
                 store := setCb g (defaultPrefix m) (snd (getCb g (store m)));
                 calls := app (calls m)
                            [CallGetPrefix g; CallSetPrefix g (defaultPrefix m)] |}) in E1.
  assert (Hm1 : m1 = m1') by (unfold m1; now rewrite E1).
  pose proof (getPrefix_full_read m1' g getCb (defaultPrefix m) Hc Hg
                (Hstore (defaultPrefix m) (snd (getCb g (store m)))) Hd) as E2.
  unfold m2. rewrite Hm1, E2.
  split; [reflexivity|]. split; [apply lookup_insert_eq|].
  split.
  - simpl. now rewrite <- app_assoc.
  - apply getPrefix_hit. apply lookup_insert_eq.
Qed.

Lemma setPrefix_cache (m : machine W) (g p : string) :
  guildPrefixCache (snd (setPrefix g p m)) = <[g := p]> (guildPrefixCache m).
Proof. unfold setPrefix. simpl. destruct (setPrefixCallback m); reflexivity. Qed.

(** X17: a cached prefix changes only through [setPrefix] for its guild.
    [getPrefix], for whatever guild, leaves every cached prefix as it is;
    [setPrefix] for another guild leaves it as it is; and of two
    [setPrefix] for the same guild the last one is what [getPrefix]
    returns. *)
Theorem cached_prefix_stable (m : machine W) (g g' p q : string) :
  (guildPrefixCache m !! g' = Some p ->
   guildPrefixCache (snd (getPrefix g m)) !! g' = Some p)
  /\ (g <> g' ->
      guildPrefixCache (snd (setPrefix g q m)) !! g' = guildPrefixCache m !! g')
  /\ fst (getPrefix g (snd (setPrefix g q (snd (setPrefix g p m))))) = Return q.
Proof.
  split; [|split].
  - intros Hc'. unfold getPrefix, call_getPrefixCallback.
    destruct (guildPrefixCache m !! g) as [p0|] eqn:Hc; [exact Hc'|].
    destruct (getPrefixCallback m) as [getCb|]; [|exact Hc'].
    destruct (getCb g (store m)) as [r w]. simpl.
    destruct (JS.truthy_string r); simpl.
    + rewrite lookup_insert_ne; [exact Hc' | congruence].
    + destruct (setPrefixCallback m); exact Hc'.
  - intros Hne. rewrite setPrefix_cache. now rewrite lookup_insert_ne.
  - assert (Hhit : guildPrefixCache (snd (setPrefix g q (snd (setPrefix g p m)))) !! g
                  = Some q).
    { rewrite setPrefix_cache. apply lookup_insert_eq. }
    now rewrite (getPrefix_hit _ _ _ Hhit).
Qed.

End MorePrefixProperties.

Lemma table_read_your_writes (g p : string) (w : gmap string string) :
  fst (table_get g (table_set g p w)) = Some p.
Proof. unfold table_get, table_set. simpl. apply lookup_insert_eq. Qed.

Lemma prefixes_stay_not_empty_witness :
  let m := setCallback (Some table_get) (Some table_set)
             (initial ({[ "g1" := "?" ]} : gmap string string)) in
  prefixes_not_empty m
  /\ fst (getPrefix "g1" m) = Return "?"
  /\ "?" <> "".
Proof.
  intros m.
  assert (Hm : prefixes_not_empty m).
  { split; [discriminate|]. intros g p. simpl. rewrite lookup_empty. discriminate. }
  split; [exact Hm|].
  assert (Hr : fst (getPrefix "g1" m) = Return "?") by reflexivity.
  split; [exact Hr|].
  exact (proj1 (proj2 (prefixes_stay_not_empty m "g1" Hm)) "?" Hr).
Defined.

Lemma default_cached_at_second_lookup_witness :
  let m := setCallback (Some table_get) (Some table_set)
             (initial (∅ : gmap string string)) in
  let m1 := snd (getPrefix "g1" m) in
  let m2 := snd (getPrefix "g1" m1) in
  (guildPrefixCache m !! "g1" = None
   /\ JS.truthy_string (fst (table_get "g1" (store m))) = false
   /\ defaultPrefix m <> "")
  /\ fst (getPrefix "g1" m1) = Return "!"
  /\ guildPrefixCache m2 !! "g1" = Some "!"
  /\ calls m2 = [CallGetPrefix "g1"; CallSetPrefix "g1" "!"; CallGetPrefix "g1"]
  /\ getPrefix "g1" m2 = (Return "!", m2).
Proof.
  intros m m1 m2.
  split; [split; [reflexivity | split; [reflexivity | discriminate]]|].
  exact (default_cached_at_second_lookup m "g1" table_get table_set
           eq_refl eq_refl eq_refl eq_refl ltac:(discriminate)
           (table_read_your_writes "g1")).
Defined.

(** ** From a message to the commands it names *)

Lemma trimStart_decompose (s : string) :
  exists gap, all_white_space gap = true /\ s = gap +:+ JS.trimStart s.
Proof.
  induction s as [|c s (gap & Hg & Hs)].
  - exists "". split; reflexivity.
  - cbn [JS.trimStart]. destruct (JS.is_white_space c) eqn:E.
    + exists (String c gap). split; [cbn [all_white_space]; now rewrite E, Hg|].
      exact (f_equal (String c) Hs).
    + exists "". split; reflexivity.
Qed.

Lemma trimStart_idem (s : string) : JS.trimStart (JS.trimStart s) = JS.trimStart s.
Proof.
  pose proof (trimStart_head s) as Hh.
  destruct (JS.trimStart s) as [|c t]; [reflexivity|].
  cbn [JS.trimStart]. now rewrite Hh.
Qed.

Lemma match_command_args_decomposition_lemma (message : string) :
  let command := fst (match_command_args message) in
  let args := snd (match_command_args message) in
  JS.has_white_space command = false
  /\ JS.trimStart args = args
  /\ exists gap,
       all_white_space gap = true
       /\ message = command +:+ gap +:+ args
       /\ (gap = "" -> args = "").
Proof.
  induction message as [|c s IH]; cbn [match_command_args].
  - repeat split. exists "". repeat split.
  - destruct (JS.is_white_space c) eqn:E.
    + cbn [fst snd]. split; [reflexivity|]. split; [apply trimStart_idem|].
      destruct (trimStart_decompose s) as (gap & Hg & Hs).
      exists (String c gap).
      split; [cbn [all_white_space]; now rewrite E, Hg|].
      split; [|discriminate].
      cbn [JS.trimStart]. rewrite E. exact (f_equal (String c) Hs).
    + destruct (match_command_args s) as [command args].
      cbn [fst snd] in *. destruct IH as (Hc & Ha & gap & Hg & Hs & He).
      split; [cbn [JS.has_white_space]; now rewrite E, Hc|].
      split; [exact Ha|].
      exists gap. split; [exact Hg|]. split; [exact (f_equal (String c) Hs) | exact He].
Qed.

(** X18: the split of a message into command and argument text loses
    nothing but the whitespace between the two: the message is the command,
    a run of whitespace and the argument text; the command has no
    whitespace in it, the argument text does not begin with whitespace,
    and it is empty when no whitespace follows the command.  The split is
    defined on every message. *)
Theorem match_command_args_decomposition (message : string) :
  let command := fst (match_command_args message) in
  let args := snd (match_command_args message) in
  JS.has_white_space command = false
  /\ JS.trimStart args = args
  /\ exists gap,
       all_white_space gap = true
       /\ message = command +:+ gap +:+ args
       /\ (gap = "" -> args = "").
Proof. exact (match_command_args_decomposition_lemma message). Qed.

Lemma startsWith_app (p s : string) : startsWith (p +:+ s) p = true.
Proof.
  induction p as [|c p IH]; [reflexivity|].
  simpl. now rewrite Ascii.eqb_refl, IH.
Qed.

Lemma slice_app (p s : string) : slice (String.length p) (p +:+ s) = s.
Proof. induction p as [|c p IH]; [reflexivity | exact IH]. Qed.

Lemma startsWith_white_space (s p : string) :
  startsWith s p = true -> JS.has_white_space p = true -> JS.has_white_space s = true.
Proof.
  revert s. induction p as [|c p IH]; intros s; [discriminate|].
  cbn [startsWith]. destruct s as [|d s]; [discriminate|].
  intros Hs. apply andb_prop in Hs as [Hd Hs]. apply Ascii.eqb_eq in Hd. subst d.
  cbn [JS.has_white_space]. destruct (JS.is_white_space c); [reflexivity|].
  simpl. now apply IH.
Qed.

Lemma match_command_args_word (word rest : string) :
  JS.has_white_space word = false ->
  match rest with
  | EmptyString => True
  | String c _ => JS.is_white_space c = true
  end ->
  match_command_args (word +:+ rest) = (word, JS.trimStart rest).
Proof.
  intros Hw Hr. induction word as [|c word IH].
  - change ("" +:+ rest) with rest.
    destruct rest as [|d rest]; [reflexivity|].
    cbn [match_command_args]. now rewrite Hr.
  - cbn [JS.has_white_space] in Hw. apply orb_false_elim in Hw as [Hc Hw].
    change (String c word +:+ rest) with (String c (word +:+ rest)).
    cbn [match_command_args]. now rewrite Hc, (IH Hw).
Qed.

Lemma has_white_space_app (s t : string) :
  JS.has_white_space (s +:+ t) = JS.has_white_space s || JS.has_white_space t.
Proof.
  induction s as [|c s IH]; [reflexivity|].
  change (String c s +:+ t) with (String c (s +:+ t)).
  cbn [JS.has_white_space]. now rewrite IH, orb_assoc.
Qed.

Lemma append_assoc (s t u : string) : s +:+ t +:+ u = (s +:+ t) +:+ u.
Proof.
  induction s as [|c s IH]; [reflexivity|].
  change (String c (s +:+ t +:+ u) = String c ((s +:+ t) +:+ u)). now rewrite IH.
Qed.

Section MessageResolution.
Context `{CaseMapping} `{Transport} {W : Type}.

(** X19: a cached prefix with whitespace in it makes every command of the
    guild unreachable from a message: whatever the message and whatever is
    registered, the handler stops before the lookup or looks up and finds
    no command. *)
Theorem white_space_prefix_resolves_nothing
    (m : machine W) (g prefix message : string) (_commands : list Command) :
  guildPrefixCache m !! g = Some prefix ->
  JS.has_white_space prefix = true ->
  CommandUtility.messageHandler_resolve g message _commands m = (Return None, m)
  \/ CommandUtility.messageHandler_resolve g message _commands m
     = (Return (Some ([], snd (match_command_args message))), m).
Proof.
  intros Hc Hw.
  unfold CommandUtility.messageHandler_resolve, CommandUtility.isPossibleCommand,
    CommandUtility.getAvailableCommands, CommandUtility.getCommandPrefix.
  rewrite (getPrefix_hit m g prefix Hc).
  destruct (startsWith message prefix); [|now left]. right.
  pose proof (match_command_args_decomposition_lemma message) as (Hcmd & _).
  destruct (match_command_args message) as [command args]. cbn [fst snd] in *.
  rewrite (getPrefix_hit m g prefix Hc).
  destruct (startsWith command prefix) eqn:Hs; [|reflexivity].
  pose proof (startsWith_white_space _ _ Hs Hw). congruence.
Qed.

Lemma prefixed_message_resolves_lemma
    (m : machine W) (g prefix name rest : string) (_commands : list Command) :
  guildPrefixCache m !! g = Some prefix ->
  JS.has_white_space prefix = false ->
  JS.has_white_space name = false ->
  match rest with
  | EmptyString => True
  | String c _ => JS.is_white_space c = true
  end ->
  CommandUtility.messageHandler_resolve g (prefix +:+ name +:+ rest) _commands m
  = (Return (Some (CommandCollector.getAvailableCommands name _commands,
                   JS.trimStart rest)), m).
Proof.
  intros Hc Hp Hn Hr.
  unfold CommandUtility.messageHandler_resolve, CommandUtility.isPossibleCommand,
    CommandUtility.getAvailableCommands, CommandUtility.getCommandPrefix.
  rewrite (getPrefix_hit m g prefix Hc), startsWith_app.
  assert (Hm : match_command_args (prefix +:+ name +:+ rest)
               = (prefix +:+ name, JS.trimStart rest)).
  { rewrite <- (match_command_args_word (prefix +:+ name) rest).
    - f_equal. apply append_assoc.
    - now rewrite has_white_space_app, Hp, Hn.
    - exact Hr. }
  rewrite Hm, (getPrefix_hit m g prefix Hc), startsWith_app, slice_app.
  reflexivity.
Qed.

(** X20: with a cached prefix free of whitespace, a message made of the
    prefix, a name free of whitespace and, after whitespace, some text
    resolves to the commands the collector has for that name, and the
    argument text they are dispatched with is the text without its leading
    whitespace; no callback is called. *)
Theorem prefixed_message_resolves
    (m : machine W) (g prefix name rest : string) (_commands : list Command) :
  guildPrefixCache m !! g = Some prefix ->
  JS.has_white_space prefix = false ->
  JS.has_white_space name = false ->
  match rest with
  | EmptyString => True
  | String c _ => JS.is_white_space c = true
  end ->
  CommandUtility.messageHandler_resolve g (prefix +:+ name +:+ rest) _commands m
  = (Return (Some (CommandCollector.getAvailableCommands name _commands,
                   JS.trimStart rest)), m).
Proof. exact (prefixed_message_resolves_lemma m g prefix name rest _commands). Qed.

End MessageResolution.

Lemma white_space_prefix_resolves_nothing_witness :
  let m := snd (setPrefix "g1" "hey " (initial tt)) in
  let cs := [@help_command held_transport; CommandCollector.new_Command "ping"] in
  (guildPrefixCache m !! "g1" = Some "hey " /\ JS.has_white_space "hey " = true)
  /\ (@CommandUtility.messageHandler_resolve ascii_case held_transport unit
        "g1" "hey ping" cs m = (Return None, m)
      \/ @CommandUtility.messageHandler_resolve ascii_case held_transport unit
           "g1" "hey ping" cs m
         = (Return (Some ([], snd (match_command_args "hey ping"))), m)).
Proof.
  intros m cs. split; [split; reflexivity|].
  exact (@white_space_prefix_resolves_nothing ascii_case held_transport unit
           m "g1" "hey " "hey ping" cs eq_refl eq_refl).
Defined.

Lemma prefixed_message_resolves_witness :
  let m := snd (setPrefix "g1" "!" (initial tt)) in
  let cs := [@help_command held_transport; CommandCollector.new_Command "ping"] in
  (guildPrefixCache m !! "g1" = Some "!"
   /\ JS.has_white_space "!" = false /\ JS.has_white_space "PING" = false)
  /\ @CommandUtility.messageHandler_resolve ascii_case held_transport unit
       "g1" "!PING  now " cs m
     = (Return (Some ([CommandCollector.new_Command "ping"], "now ")), m).
Proof.
  intros m cs. split; [repeat split|].
  exact (@prefixed_message_resolves ascii_case held_transport unit
           m "g1" "!" "PING" "  now " cs eq_refl eq_refl eq_refl eq_refl).
Defined.

(** ** The listing of the help command *)

Section HelpListing.
Context `{Transport}.

Lemma checkPermissions_filter (commands : list Command) (client : ICommandMessage) :
  Help.checkPermissions commands client
  = List.filter (fun cmd => Command.hasPermission cmd client) commands.
Proof.
  unfold Help.checkPermissions.
  induction commands as [|cmd commands IH]; [reflexivity|].
  cbn [map combine List.filter snd].
  destruct (Command.hasPermission cmd client); cbn [map fst]; now rewrite IH.
Qed.

Lemma pages_loop_concat {A : Type} (fuel : nat) :
  forall (commands : list A) (embeds : list (list A)),
  (length commands <= fuel)%nat ->
  concat (Help.pages_loop fuel commands embeds) = app (concat embeds) commands.
Proof.
  induction fuel as [|fuel IH]; intros commands embeds Hl.
  - destruct commands; [now rewrite app_nil_r | simpl in Hl; lia].
  - cbn [Help.pages_loop]. destruct commands as [|c commands].
    + simpl. now rewrite app_nil_r.
    + cbn [length Nat.ltb Nat.leb].
      rewrite IH by (rewrite length_skipn; simpl in *; lia).
      rewrite concat_app. cbn [concat]. rewrite app_nil_r, <- app_assoc.
      now rewrite firstn_skipn.
Qed.

Lemma pages_loop_sizes {A : Type} (fuel : nat) :
  forall (commands : list A) (embeds : list (list A)),
  Forall (fun page => (1 <= length page <= 25)%nat) embeds ->
  Forall (fun page => (1 <= length page <= 25)%nat)
         (Help.pages_loop fuel commands embeds).
Proof.
  induction fuel as [|fuel IH]; intros commands embeds He; [exact He|].
  cbn [Help.pages_loop]. destruct commands as [|c commands]; [exact He|].
  cbn [length Nat.ltb Nat.leb]. apply IH. apply Forall_app. split; [exact He|].
  constructor; [|constructor].
  rewrite length_firstn. cbn [length]. lia.
Qed.

Lemma pages_count_step (n : nat) :
  (1 <= n)%nat -> (S ((n - 25 + 24) / 25) = (n + 24) / 25)%nat.
Proof.
  intros Hn. destruct (Nat.lt_ge_cases n 25) as [Hlt|Hge].
  - replace (n - 25 + 24)%nat with 24%nat by lia.
    change (1 = (n + 24) / 25)%nat.
    apply (Nat.div_unique (n + 24) 25 1 (n - 1)); lia.
  - replace (n + 24)%nat with (n - 25 + 24 + 1 * 25)%nat by lia.
    rewrite Nat.div_add by lia. lia.
Qed.

Lemma pages_loop_count {A : Type} (fuel : nat) :
  forall (commands : list A) (embeds : list (list A)),
  (length commands <= fuel)%nat ->
  length (Help.pages_loop fuel commands embeds)
  = (length embeds + (length commands + 24) / 25)%nat.
Proof.
  induction fuel as [|fuel IH]; intros commands embeds Hl.
  - destruct commands; [simpl; lia | simpl in Hl; lia].
  - cbn [Help.pages_loop]. destruct commands as [|c commands].
    + simpl. lia.
    + cbn [length Nat.ltb Nat.leb].
      rewrite IH by (rewrite length_skipn; simpl in *; lia).
      rewrite length_app, length_skipn. cbn [length].
      rewrite <- (pages_count_step (S (length commands))) by lia. lia.
Qed.

Lemma pages_loop_fuel {A : Type} (fuel : nat) :
  forall (fuel' : nat) (commands : list A) (embeds : list (list A)),
  (length commands <= fuel)%nat -> (length commands <= fuel')%nat ->
  Help.pages_loop fuel commands embeds = Help.pages_loop fuel' commands embeds.
Proof.
  induction fuel as [|fuel IH]; intros fuel' commands embeds Hl Hl'.
  - destruct commands; [|simpl in Hl; lia]. destruct fuel'; reflexivity.
  - destruct commands as [|c commands]; [destruct fuel'; reflexivity|].
    destruct fuel' as [|fuel']; [simpl in Hl'; lia|].
    cbn [Help.pages_loop length Nat.ltb Nat.leb].
    apply IH; rewrite length_skipn; simpl in *; lia.
Qed.

Lemma pages_partition_lemma {A : Type} (commands : list A) :
  (forall fuel, (length commands <= fuel)%nat ->
     Help.pages_loop fuel commands [] = Help.pages commands)
  /\ concat (Help.pages commands) = commands
  /\ Forall (fun page => (1 <= length page <= 25)%nat) (Help.pages commands)
  /\ length (Help.pages commands) = ((length commands + 24) / 25)%nat.
Proof.
  unfold Help.pages. split; [|split; [|split]].
  - intros fuel Hl. now apply pages_loop_fuel.
  - now rewrite pages_loop_concat.
  - apply pages_loop_sizes. constructor.
  - now rewrite pages_loop_count.
Qed.

(** X21: the pages of the help listing.  The loop ends because nothing is
    left, not because of the bound on its turns (more turns give the same
    pages); the pages put end to end are the commands in their order,
    none lost and none repeated; every page has between 1 and 25 entries,
    and there are as many pages as the number of commands divided by 25,
    rounded up. *)
Theorem pages_partition {A : Type} (commands : list A) :
  (forall fuel, (length commands <= fuel)%nat ->
     Help.pages_loop fuel commands [] = Help.pages commands)
  /\ concat (Help.pages commands) = commands
  /\ Forall (fun page => (1 <= length page <= 25)%nat) (Help.pages commands)
  /\ length (Help.pages commands) = ((length commands + 24) / 25)%nat.
Proof. exact (pages_partition_lemma commands). Qed.

Lemma filter_help_permitted (_commands : list Command) (message : ICommandMessage) :
  List.filter CommandBase.hasHelp
    (List.filter (fun cmd => Command.hasPermission cmd message) _commands)
  = List.filter
      (fun cmd => forallb (fun cb => cb message) (_permissionHandler cmd)
                  && negb (String.eqb (_help cmd) ""))
      _commands.
Proof.
  induction _commands as [|cmd cs IH]; [reflexivity|].
  cbn [List.filter]. unfold Command.hasPermission at 1.
  rewrite isAllowed_forallb.
  destruct (forallb (fun cb => cb message) (_permissionHandler cmd)); cbn [andb].
  - cbn [List.filter]. unfold CommandBase.hasHelp at 1.
    destruct (negb (String.eqb (_help cmd) "")); now rewrite IH.
  - exact IH.
Qed.

(** X22: what the help listing shows for a message.  The fields of its
    embeds, put end to end, are exactly the registered commands that have a
    help text and whose permission predicates all accept the message, in
    the order of registration: the name of a field is the command name
    with the prefix before it, between two pairs of asterisks, and its
    value is the help text; every embed has between 1 and 25 fields; a
    command without predicates and with a help text is always listed. *)
Theorem listing_shows_permitted_commands
    (commandPrefix : string) (_commands : list Command) (message : ICommandMessage) :
  concat (Help.listing commandPrefix _commands message)
  = map (fun cmd => ("**" +:+ (commandPrefix +:+ _name cmd) +:+ "**", _help cmd))
      (List.filter
         (fun cmd => forallb (fun cb => cb message) (_permissionHandler cmd)
                     && negb (String.eqb (_help cmd) ""))
         _commands)
  /\ Forall (fun fields => (1 <= length fields <= 25)%nat)
       (Help.listing commandPrefix _commands message)
  /\ (forall cmd, In cmd _commands ->
      _permissionHandler cmd = [] -> _help cmd <> "" ->
      In ("**" +:+ (commandPrefix +:+ _name cmd) +:+ "**", _help cmd)
         (concat (Help.listing commandPrefix _commands message))).
Proof.
  assert (Hl : concat (Help.listing commandPrefix _commands message)
  = map (fun cmd => ("**" +:+ (commandPrefix +:+ _name cmd) +:+ "**", _help cmd))
      (List.filter
         (fun cmd => forallb (fun cb => cb message) (_permissionHandler cmd)
                     && negb (String.eqb (_help cmd) ""))
         _commands)).
  { unfold Help.listing, Help.getAvailableCommandsByPermission.
    rewrite <- List.concat_map.
    rewrite (proj1 (proj2 (pages_partition_lemma _))), checkPermissions_filter.
    rewrite filter_help_permitted, List.map_map. reflexivity. }
  split; [exact Hl|]. split.
  - unfold Help.listing. apply Forall_map.
    eapply List.Forall_impl; [|exact (proj1 (proj2 (proj2 (pages_partition_lemma _))))].
    intros page Hp. cbn beta. now rewrite length_map.
  - intros cmd Hin Hp Hh. rewrite Hl.
    apply (in_map (fun cmd => ("**" +:+ (commandPrefix +:+ _name cmd) +:+ "**", _help cmd))).
    apply filter_In. split; [exact Hin|].
    rewrite Hp. simpl. apply negb_true_iff, String.eqb_neq, Hh.
Qed.

End HelpListing.

Lemma pages_partition_witness :
  length (Help.pages (seq 0 60)) = 3%nat
  /\ map (@length nat) (Help.pages (seq 0 60)) = [25; 25; 10]%nat.
Proof.
  split; [|vm_compute; reflexivity].
  rewrite (proj2 (proj2 (proj2 (pages_partition (seq 0 60))))). reflexivity.
Defined.

Section ExecuteCommand.
Context `{CaseMapping} `{Transport} {W : Type}.

(** X23: [executeCommand] on a guild with a cached prefix resolves its text
    as [messageHandler] resolves the message made of the prefix and the
    text, and it never stops for want of the prefix; so with a prefix free
    of whitespace, a text made of a name and, after whitespace, arguments
    resolves to the commands the collector has for the name. *)
Theorem executeCommand_resolves_as_message
    (m : machine W) (g prefix cmd : string) (_commands : list Command) :
  guildPrefixCache m !! g = Some prefix ->
  CommandUtility.executeCommand_resolve g cmd _commands m
  = CommandUtility.messageHandler_resolve g (prefix +:+ cmd) _commands m
  /\ fst (CommandUtility.executeCommand_resolve g cmd _commands m) <> Return None
  /\ (forall name rest,
      JS.has_white_space prefix = false ->
      JS.has_white_space name = false ->
      match rest with
      | EmptyString => True
      | String c _ => JS.is_white_space c = true
      end ->
      cmd = name +:+ rest ->
      CommandUtility.executeCommand_resolve g cmd _commands m
      = (Return (Some (CommandCollector.getAvailableCommands name _commands,
                       JS.trimStart rest)), m)).
Proof.
  intros Hc.
  assert (He : CommandUtility.executeCommand_resolve g cmd _commands m
               = CommandUtility.messageHandler_resolve g (prefix +:+ cmd) _commands m).
  { unfold CommandUtility.executeCommand_resolve, CommandUtility.messageHandler_resolve,
      CommandUtility.getCommandPrefix.
    now rewrite (getPrefix_hit m g prefix Hc). }
  split; [exact He|]. split.
  - rewrite He.
    unfold CommandUtility.messageHandler_resolve, CommandUtility.isPossibleCommand,
      CommandUtility.getAvailableCommands, CommandUtility.getCommandPrefix.
    rewrite (getPrefix_hit m g prefix Hc), startsWith_app.
    destruct (match_command_args (prefix +:+ cmd)) as [command args].
    rewrite (getPrefix_hit m g prefix Hc).
    destruct (negb (startsWith command prefix)); discriminate.
  - intros name rest Hp Hn Hr ->. rewrite He.
    now apply prefixed_message_resolves_lemma.
Qed.

End ExecuteCommand.

Lemma executeCommand_resolves_as_message_witness :
  let m := snd (setPrefix "g1" "!" (initial tt)) in
  let cs := [@help_command held_transport; CommandCollector.new_Command "ping"] in
  guildPrefixCache m !! "g1" = Some "!"
  /\ @CommandUtility.executeCommand_resolve ascii_case held_transport unit
       "g1" "ping now" cs m
     = (Return (Some ([CommandCollector.new_Command "ping"], "now")), m).
Proof.
  intros m cs. split; [reflexivity|].
  exact (proj2 (proj2 (@executeCommand_resolves_as_message ascii_case held_transport unit
                         m "g1" "!" "ping now" cs eq_refl))
           "ping" " now" eq_refl eq_refl eq_refl eq_refl).
Defined.
